(** * The coordinator of rtsp-simple-server (main.go)

    A shallow embedding of [program.run], [program.findPublisher] and
    [program.forwardFrame].  The coordinator is the single goroutine that
    owns the client set, the path-to-publisher map and the two counters;
    every event is handled to completion before the next one is read, so the
    event loop is a function from a state and an event to the next state and
    the list of effects the handler performed (channel sends, channel closes,
    goroutines started, datagrams queued).

    Pointers to [serverClient] and [source] objects are handles into two stores that
    are part of the state: a handler that writes [evt.client.state] updates
    the one object every holder of the handle sees. *)

From Stdlib Require Import ZArith Lia.
From stdpp Require Import gmap strings list fin_maps functions.

Local Open Scope Z_scope.

(** ** Go's [int]

    [int] is taken as the 64-bit signed integer of the usual targets;
    [+=] and [-=] wrap around. *)

Definition minInt : Z := - 2 ^ 63.
Definition maxInt : Z := 2 ^ 63 - 1.

Definition wrapInt (z : Z) : Z := (z + 2 ^ 63) mod 2 ^ 64 - 2 ^ 63.

Definition intAdd (a b : Z) : Z := wrapInt (a + b).
Definition intSub (a b : Z) : Z := wrapInt (a - b).

Definition inInt (z : Z) : Prop := minInt ≤ z ≤ maxInt.

(** ** Data *)

Definition bytes := list Byte.byte.

(** [type track struct { rtpPort int; rtcpPort int }] *)
Record track := { rtpPort : Z; rtcpPort : Z }.

(** [type streamProtocol int] with its two constants. *)
Inductive streamProtocol := streamProtocolUdp | streamProtocolTcp.

Definition streamProtocol_String (s : streamProtocol) : string :=
  match s with
  | streamProtocolUdp => "udp"%string
  | streamProtocolTcp => "tcp"%string
  end.

(** [gortsplib.StreamType]: the handlers only test [== StreamTypeRtp]. *)
Inductive StreamType := StreamTypeRtp | StreamTypeRtcp.

(** The states of a client session ([clientStateInitial] ... in
    server-client.go); main.go assigns five of them. *)
Inductive clientState :=
  | clientStateInitial
  | clientStateAnnounce
  | clientStatePrePlay
  | clientStatePlay
  | clientStatePreRecord
  | clientStateRecord.

(** [sdp.SessionDescription]: the coordinator reads only
    [len(MediaDescriptions)]. *)
Record MediaDescription := { MediaName : string }.
Record SessionDescription := { MediaDescriptions : list MediaDescription }.

(** [net.IP] in canonical (16-byte) form, so that [IP.Equal] is equality. *)
Definition IP := N.

(** [net.UDPAddr] *)
Record UDPAddr := { addrIP : IP; addrPort : Z; addrZone : string }.

(** [net.Conn] as far as a new client keeps it: the peer's address. *)
Record Conn := { connIP : IP; connZone : string }.

Definition clientPtr := nat.
Definition sourcePtr := nat.
Definition chan := nat.

(** The fields of [serverClient] that main.go reads or writes.  [c_ip] and
    [c_zone] stand for the methods [ip()] and [zone()]; [c_writeBuf] is the
    capacity of the slices that [writeBuf.swap()] hands out. *)
Record serverClient := {
  c_path : string;
  c_state : clientState;
  c_streamProtocol : streamProtocol;
  c_streamTracks : list track;
  c_ip : IP;
  c_zone : string;
  c_streamSdpText : bytes;
  c_streamSdpParsed : SessionDescription;
  c_writeBuf : nat
}.

(** The fields of [source] that main.go reads or writes. *)
Record source := {
  s_path : string;
  s_ready : bool;
  s_sdpText : bytes;
  s_sdpParsed : SessionDescription
}.

(** [type publisher interface]: a value of the interface is a pointer to a
    [serverClient] or to a [source]. *)
Inductive publisher :=
  | pubClient (c : clientPtr)
  | pubSource (s : sourcePtr).

(** [type program struct]: the coordinator-owned fields, with the two object
    stores the pointers refer to and the allocator of client objects. *)
Record program := {
  clients : gset clientPtr;
  sources : list sourcePtr;
  publishers : gmap string publisher;
  publisherCount : Z;
  receiverCount : Z;
  clientMem : clientPtr → serverClient;
  sourceMem : sourcePtr → source;
  nextClient : clientPtr
}.

#[global] Instance clientState_eq_dec : EqDecision clientState.
Proof. solve_decision. Defined.
#[global] Instance streamProtocol_eq_dec : EqDecision streamProtocol.
Proof. solve_decision. Defined.
#[global] Instance StreamType_eq_dec : EqDecision StreamType.
Proof. solve_decision. Defined.
#[global] Instance publisher_eq_dec : EqDecision publisher.
Proof. solve_decision. Defined.
#[global] Instance track_eq_dec : EqDecision track.
Proof. solve_decision. Defined.

(** ** The events of the coordinator *)

Inductive programEvent :=
  | programEventClientNew (nconn : Conn)
  | programEventClientClose (done : chan) (client : clientPtr)
  | programEventClientDescribe (path : string) (res : chan)
  | programEventClientAnnounce (res : chan) (client : clientPtr) (path : string)
  | programEventClientSetupPlay (res : chan) (client : clientPtr) (path : string)
      (protocol : streamProtocol) (rtpPort rtcpPort : Z)
  | programEventClientSetupRecord (res : chan) (client : clientPtr)
      (protocol : streamProtocol) (rtpPort rtcpPort : Z)
  | programEventClientPlay1 (res : chan) (client : clientPtr)
  | programEventClientPlay2 (done : chan) (client : clientPtr)
  | programEventClientPlayStop (done : chan) (client : clientPtr)
  | programEventClientRecord (done : chan) (client : clientPtr)
  | programEventClientRecordStop (done : chan) (client : clientPtr)
  | programEventClientFrameUdp (addr : UDPAddr) (streamType : StreamType) (buf : bytes)
  | programEventClientFrameTcp (path : string) (trackId : Z)
      (streamType : StreamType) (buf : bytes)
  | programEventStreamerReady (src : sourcePtr)
  | programEventStreamerNotReady (src : sourcePtr)
  | programEventStreamerFrame (src : sourcePtr) (trackId : Z)
      (streamType : StreamType) (buf : bytes)
  | programEventTerminate.

(** ** The effects of a handler

    An [error] is [None] for [nil] and [Some msg] for [fmt.Errorf(msg)]; a
    [nil] byte slice is the empty list. *)

Definition error := option string.

(** The three listeners of [program]: [rtspl], [rtpl], [rtcpl]. *)
Inductive listener := rtspl | rtpl | rtcpl.

Inductive action :=
  | ActSendErr (res : chan) (err : error)
  | ActSendBytes (res : chan) (b : bytes)
  | ActCloseDone (done : chan)
  | ActGoClose (c : clientPtr)
  | ActUdpWrite (l : listener) (addr : UDPAddr) (buf : bytes)
  | ActTcpFrame (c : clientPtr) (trackId : Z) (streamType : StreamType) (content : bytes)
  | ActRtcpOnFrame (c : clientPtr) (trackId : nat) (streamType : StreamType) (buf : bytes)
  | ActStartClient (c : clientPtr)
  | ActLogClient (c : clientPtr) (msg : string)
  | ActLogSource (s : sourcePtr) (msg : string)
  | ActSourceClose (s : sourcePtr)
  | ActListenerClose (l : listener)
  | ActClientClose (c : clientPtr)
  | ActCloseEvents
  | ActCloseProgramDone.

(** ** Field updates *)

Definition set_clients (v : gset clientPtr) (p : program) : program :=
  {| clients := v; sources := sources p; publishers := publishers p;
     publisherCount := publisherCount p; receiverCount := receiverCount p;
     clientMem := clientMem p; sourceMem := sourceMem p;
     nextClient := nextClient p |}.

Definition set_publishers (v : gmap string publisher) (p : program) : program :=
  {| clients := clients p; sources := sources p; publishers := v;
     publisherCount := publisherCount p; receiverCount := receiverCount p;
     clientMem := clientMem p; sourceMem := sourceMem p;
     nextClient := nextClient p |}.

Definition set_publisherCount (v : Z) (p : program) : program :=
  {| clients := clients p; sources := sources p; publishers := publishers p;
     publisherCount := v; receiverCount := receiverCount p;
     clientMem := clientMem p; sourceMem := sourceMem p;
     nextClient := nextClient p |}.

Definition set_receiverCount (v : Z) (p : program) : program :=
  {| clients := clients p; sources := sources p; publishers := publishers p;
     publisherCount := publisherCount p; receiverCount := v;
     clientMem := clientMem p; sourceMem := sourceMem p;
     nextClient := nextClient p |}.

Definition set_clientMem (v : clientPtr → serverClient) (p : program) : program :=
  {| clients := clients p; sources := sources p; publishers := publishers p;
     publisherCount := publisherCount p; receiverCount := receiverCount p;
     clientMem := v; sourceMem := sourceMem p;
     nextClient := nextClient p |}.

Definition set_sourceMem (v : sourcePtr → source) (p : program) : program :=
  {| clients := clients p; sources := sources p; publishers := publishers p;
     publisherCount := publisherCount p; receiverCount := receiverCount p;
     clientMem := clientMem p; sourceMem := v;
     nextClient := nextClient p |}.

Definition set_nextClient (v : clientPtr) (p : program) : program :=
  {| clients := clients p; sources := sources p; publishers := publishers p;
     publisherCount := publisherCount p; receiverCount := receiverCount p;
     clientMem := clientMem p; sourceMem := sourceMem p;
     nextClient := v |}.

Definition with_path (v : string) (c : serverClient) : serverClient :=
  {| c_path := v; c_state := c_state c; c_streamProtocol := c_streamProtocol c;
     c_streamTracks := c_streamTracks c; c_ip := c_ip c; c_zone := c_zone c;
     c_streamSdpText := c_streamSdpText c;
     c_streamSdpParsed := c_streamSdpParsed c; c_writeBuf := c_writeBuf c |}.

Definition with_state (v : clientState) (c : serverClient) : serverClient :=
  {| c_path := c_path c; c_state := v; c_streamProtocol := c_streamProtocol c;
     c_streamTracks := c_streamTracks c; c_ip := c_ip c; c_zone := c_zone c;
     c_streamSdpText := c_streamSdpText c;
     c_streamSdpParsed := c_streamSdpParsed c; c_writeBuf := c_writeBuf c |}.

Definition with_streamProtocol (v : streamProtocol) (c : serverClient) : serverClient :=
  {| c_path := c_path c; c_state := c_state c; c_streamProtocol := v;
     c_streamTracks := c_streamTracks c; c_ip := c_ip c; c_zone := c_zone c;
     c_streamSdpText := c_streamSdpText c;
     c_streamSdpParsed := c_streamSdpParsed c; c_writeBuf := c_writeBuf c |}.

Definition with_streamTracks (v : list track) (c : serverClient) : serverClient :=
  {| c_path := c_path c; c_state := c_state c;
     c_streamProtocol := c_streamProtocol c;
     c_streamTracks := v; c_ip := c_ip c; c_zone := c_zone c;
     c_streamSdpText := c_streamSdpText c;
     c_streamSdpParsed := c_streamSdpParsed c; c_writeBuf := c_writeBuf c |}.

Definition with_ready (v : bool) (s : source) : source :=
  {| s_path := s_path s; s_ready := v; s_sdpText := s_sdpText s;
     s_sdpParsed := s_sdpParsed s |}.

(** A write through a client pointer: every holder of the handle sees it. *)
Definition updClient (client : clientPtr) (f : serverClient → serverClient)
    (p : program) : program :=
  set_clientMem (<[client := f (clientMem p client)]> (clientMem p)) p.

Definition updSource (src : sourcePtr) (f : source → source)
    (p : program) : program :=
  set_sourceMem (<[src := f (sourceMem p src)]> (sourceMem p)) p.

(** ** The publisher interface

    [publisherIsReady], [publisherSdpText] and [publisherSdpParsed] are the
    three methods of [publisher]; both implementations live outside main.go. *)

Class Publisher (A : Type) := {
  publisherIsReady : A → bool;
  publisherSdpText : A → bytes;
  publisherSdpParsed : A → SessionDescription
}.

(** Modelled from the spec: the methods of [serverClient] that implement
    [publisher] (server-client.go).  A client-publisher is one that has
    completed ANNOUNCE, SETUP(record) and RECORD, and Record is the event
    that counts it as a publisher, so it is ready exactly in state RECORD;
    its SDP is the one it holds. *)
#[global] Instance serverClient_Publisher : Publisher serverClient := {|
  publisherIsReady c := bool_decide (c_state c = clientStateRecord);
  publisherSdpText c := c_streamSdpText c;
  publisherSdpParsed c := c_streamSdpParsed c
|}.

(** Modelled from the spec: the methods of [source] that implement
    [publisher] (source.go): the [ready] flag that main.go sets, and the
    cached SDP. *)
#[global] Instance source_Publisher : Publisher source := {|
  publisherIsReady s := s_ready s;
  publisherSdpText s := s_sdpText s;
  publisherSdpParsed s := s_sdpParsed s
|}.

(** A method call on an interface value: dispatch on the dynamic type and
    read the object in the store. *)
Definition pubIsReady (p : program) (pub : publisher) : bool :=
  match pub with
  | pubClient c => publisherIsReady (clientMem p c)
  | pubSource s => publisherIsReady (sourceMem p s)
  end.

Definition pubSdpText (p : program) (pub : publisher) : bytes :=
  match pub with
  | pubClient c => publisherSdpText (clientMem p c)
  | pubSource s => publisherSdpText (sourceMem p s)
  end.

Definition pubSdpParsed (p : program) (pub : publisher) : SessionDescription :=
  match pub with
  | pubClient c => publisherSdpParsed (clientMem p c)
  | pubSource s => publisherSdpParsed (sourceMem p s)
  end.

(** ** [findPublisher]

    [range] over a Go map visits the entries in an unspecified order: the
    loops are written over an explicit list of the entries, and the program
    runs them on the entries of the map. *)

Definition portOf (streamType : StreamType) (t : track) : Z :=
  match streamType with
  | StreamTypeRtp => rtpPort t
  | StreamTypeRtcp => rtcpPort t
  end.

(** The inner loop [for i, t := range cl.streamTracks], from index [i]. *)
Fixpoint findTrack (streamType : StreamType) (port : Z) (tracks : list track)
    (i : nat) : option nat :=
  match tracks with
  | [] => None
  | t :: rest =>
      if bool_decide (portOf streamType t = port) then Some i
      else findTrack streamType port rest (S i)
  end.

(** The three tests after which [findPublisher] skips a client. *)
Definition skipsClient (cl : serverClient) (addr : UDPAddr) : bool :=
  bool_decide (c_streamProtocol cl ≠ streamProtocolUdp)
  || bool_decide (c_state cl ≠ clientStateRecord)
  || negb (bool_decide (c_ip cl = addrIP addr)).

Fixpoint findPublisherIn (p : program) (order : list (string * publisher))
    (addr : UDPAddr) (streamType : StreamType) : option (clientPtr * nat) :=
  match order with
  | [] => None
  | (_, pubSource _) :: rest => findPublisherIn p rest addr streamType
  | (_, pubClient c) :: rest =>
      let cl := clientMem p c in
      if skipsClient cl addr then findPublisherIn p rest addr streamType
      else
        match findTrack streamType (addrPort addr) (c_streamTracks cl) 0 with
        | Some i => Some (c, i)
        | None => findPublisherIn p rest addr streamType
        end
  end.

(** [None] is the result [(nil, -1)]. *)
Definition findPublisher (p : program) (addr : UDPAddr) (streamType : StreamType)
    : option (clientPtr * nat) :=
  findPublisherIn p (map_to_list (publishers p)) addr streamType.

(** ** [forwardFrame]

    [None] is a run-time panic: an index out of range in
    [client.streamTracks[trackId]], or a frame longer than the capacity of
    the slice in [buf[:len(frame)]]. *)

Definition trackAt (tracks : list track) (trackId : Z) : option track :=
  if decide (0 ≤ trackId) then tracks !! Z.to_nat trackId else None.

Definition udpListener (streamType : StreamType) : listener :=
  match streamType with
  | StreamTypeRtp => rtpl
  | StreamTypeRtcp => rtcpl
  end.

(** The body of the loop for one [client]. *)
Definition forwardTo (p : program) (client : clientPtr) (path : string)
    (trackId : Z) (streamType : StreamType) (frame : bytes) : option (list action) :=
  let cl := clientMem p client in
  if bool_decide (c_path cl = path) && bool_decide (c_state cl = clientStatePlay) then
    match c_streamProtocol cl with
    | streamProtocolUdp =>
        match trackAt (c_streamTracks cl) trackId with
        | None => None
        | Some t =>
            Some [ActUdpWrite (udpListener streamType)
                    {| addrIP := c_ip cl; addrPort := portOf streamType t;
                       addrZone := c_zone cl |} frame]
        end
    | streamProtocolTcp =>
        if decide (length frame ≤ c_writeBuf cl)%nat
        then Some [ActTcpFrame client trackId streamType frame]
        else None
    end
  else Some [].

Fixpoint forwardFrameIn (p : program) (order : list clientPtr) (path : string)
    (trackId : Z) (streamType : StreamType) (frame : bytes) : option (list action) :=
  match order with
  | [] => Some []
  | client :: rest =>
      match forwardTo p client path trackId streamType frame with
      | None => None
      | Some a =>
          match forwardFrameIn p rest path trackId streamType frame with
          | None => None
          | Some b => Some (a ++ b)
          end
      end
  end.

Definition forwardFrame (p : program) (path : string) (trackId : Z)
    (streamType : StreamType) (frame : bytes) : option (list action) :=
  forwardFrameIn p (elements (clients p)) path trackId streamType frame.

(** ** The event loop [program.run] *)

Section Coordinator.

(** The capacity that [newServerClient] gives the write buffers of a client;
    the constant is not in main.go. *)
Variable writeBufSize : nat.

(** Modelled from the spec: [newServerClient] (server-client.go) constructs
    a client session in state INITIAL, with an empty path and no tracks, on
    the accepted connection. *)
Definition newServerClient (nconn : Conn) : serverClient :=
  {| c_path := EmptyString;
     c_state := clientStateInitial;
     c_streamProtocol := streamProtocolUdp;
     c_streamTracks := [];
     c_ip := connIP nconn;
     c_zone := connZone nconn;
     c_streamSdpText := [];
     c_streamSdpParsed := {| MediaDescriptions := [] |};
     c_writeBuf := writeBufSize |}.

Definition errorf1 (before : string) (arg : string) (after : string) : error :=
  Some (String.append before (String.append arg after)).

(** [evt.client.streamTracks = append(evt.client.streamTracks, &track{...})] *)
Definition appendTrack (rtp rtcp : Z) (c : serverClient) : serverClient :=
  with_streamTracks (c_streamTracks c ++ [{| rtpPort := rtp; rtcpPort := rtcp |}]) c.

(** [for oc := range p.clients { if cond(oc) { go oc.close() } }] *)
Definition closeAll (order : list clientPtr) (cond : clientPtr → bool) : list action :=
  ActGoClose <$> filter (λ oc, cond oc = true) order.

(** One iteration of the main loop: the state after the handler and the
    effects it performed, or [None] when the handler panics. *)
Definition handle (p : program) (rawEvt : programEvent)
    : option (program * list action) :=
  match rawEvt with
  | programEventClientNew nconn =>
      let c := nextClient p in
      let p1 := set_nextClient (S c)
                  (set_clientMem (<[c := newServerClient nconn]> (clientMem p)) p) in
      Some (set_clients ({[c]} ∪ clients p1) p1,
            [ActStartClient c; ActLogClient c "connected"])

  | programEventClientClose done client =>
      if decide (client ∈ clients p) then
        let p1 := set_clients (clients p ∖ {[client]}) p in
        let cpath := c_path (clientMem p1 client) in
        let p2 :=
          if decide (cpath ≠ EmptyString) then
            match publishers p1 !! cpath with
            | Some pub =>
                if decide (pub = pubClient client)
                then set_publishers (delete cpath (publishers p1)) p1
                else p1
            | None => p1
            end
          else p1 in
        Some (p2, [ActLogClient client "disconnected"; ActCloseDone done])
      else Some (p, [ActCloseDone done])

  | programEventClientDescribe path res =>
      match publishers p !! path with
      | Some pub =>
          if pubIsReady p pub
          then Some (p, [ActSendBytes res (pubSdpText p pub)])
          else Some (p, [ActSendBytes res []])
      | None => Some (p, [ActSendBytes res []])
      end

  | programEventClientAnnounce res client path =>
      match publishers p !! path with
      | Some _ =>
          Some (p, [ActSendErr res
                      (errorf1 "someone is already publishing on path '" path "'")])
      | None =>
          let p1 := updClient client (with_path path) p in
          let p2 := updClient client (with_state clientStateAnnounce) p1 in
          let p3 := set_publishers (<[path := pubClient client]> (publishers p2)) p2 in
          Some (p3, [ActSendErr res None])
      end

  | programEventClientSetupPlay res client path protocol rtp rtcp =>
      let noOne := Some (p, [ActSendErr res
                               (errorf1 "no one is streaming on path '" path "'")]) in
      match publishers p !! path with
      | None => noOne
      | Some pub =>
          if negb (pubIsReady p pub) then noOne
          else
            let sdpParsed := pubSdpParsed p pub in
            if decide (length (MediaDescriptions sdpParsed)
                         ≤ length (c_streamTracks (clientMem p client)))%nat
            then Some (p, [ActSendErr res
                             (Some "all the tracks have already been setup"%string)])
            else
              let p1 := updClient client (with_path path) p in
              let p2 := updClient client (with_streamProtocol protocol) p1 in
              let p3 := updClient client (appendTrack rtp rtcp) p2 in
              let p4 := updClient client (with_state clientStatePrePlay) p3 in
              Some (p4, [ActSendErr res None])
      end

  | programEventClientSetupRecord res client protocol rtp rtcp =>
      let p1 := updClient client (with_streamProtocol protocol) p in
      let p2 := updClient client (appendTrack rtp rtcp) p1 in
      let p3 := updClient client (with_state clientStatePreRecord) p2 in
      Some (p3, [ActSendErr res None])

  | programEventClientPlay1 res client =>
      let cpath := c_path (clientMem p client) in
      let noOne := Some (p, [ActSendErr res
                               (errorf1 "no one is streaming on path '" cpath "'")]) in
      match publishers p !! cpath with
      | None => noOne
      | Some pub =>
          if negb (pubIsReady p pub) then noOne
          else
            let sdpParsed := pubSdpParsed p pub in
            if decide (length (c_streamTracks (clientMem p client))
                         ≠ length (MediaDescriptions sdpParsed))
            then Some (p, [ActSendErr res
                             (Some "not all tracks have been setup"%string)])
            else Some (p, [ActSendErr res None])
      end

  | programEventClientPlay2 done client =>
      let p1 := set_receiverCount (intAdd (receiverCount p) 1) p in
      let p2 := updClient client (with_state clientStatePlay) p1 in
      Some (p2, [ActCloseDone done])

  | programEventClientPlayStop done client =>
      let p1 := set_receiverCount (intSub (receiverCount p) 1) p in
      let p2 := updClient client (with_state clientStatePrePlay) p1 in
      Some (p2, [ActCloseDone done])

  | programEventClientRecord done client =>
      let p1 := set_publisherCount (intAdd (publisherCount p) 1) p in
      let p2 := updClient client (with_state clientStateRecord) p1 in
      Some (p2, [ActCloseDone done])

  | programEventClientRecordStop done client =>
      let p1 := set_publisherCount (intSub (publisherCount p) 1) p in
      let p2 := updClient client (with_state clientStatePreRecord) p1 in
      let closes :=
        closeAll (elements (clients p2))
          (λ oc, bool_decide (oc ≠ client)
                 && bool_decide (c_path (clientMem p2 oc)
                                 = c_path (clientMem p2 client))) in
      Some (p2, closes ++ [ActCloseDone done])

  | programEventClientFrameUdp addr streamType buf =>
      match findPublisher p addr streamType with
      | None => Some (p, [])
      | Some (client, trackId) =>
          match forwardFrame p (c_path (clientMem p client))
                  (Z.of_nat trackId) streamType buf with
          | None => None
          | Some writes =>
              Some (p, ActRtcpOnFrame client trackId streamType buf :: writes)
          end
      end

  | programEventClientFrameTcp path trackId streamType buf =>
      match forwardFrame p path trackId streamType buf with
      | None => None
      | Some writes => Some (p, writes)
      end

  | programEventStreamerReady src =>
      let p1 := updSource src (with_ready true) p in
      let p2 := set_publisherCount (intAdd (publisherCount p1) 1) p1 in
      Some (p2, [ActLogSource src "ready"])

  | programEventStreamerNotReady src =>
      let p1 := updSource src (with_ready false) p in
      let p2 := set_publisherCount (intSub (publisherCount p1) 1) p1 in
      let closes :=
        closeAll (elements (clients p2))
          (λ oc, bool_decide (c_path (clientMem p2 oc)
                              = s_path (sourceMem p2 src))) in
      Some (p2, ActLogSource src "not ready" :: closes)

  | programEventStreamerFrame src trackId streamType buf =>
      match forwardFrame p (s_path (sourceMem p src)) trackId streamType buf with
      | None => None
      | Some writes => Some (p, writes)
      end

  | programEventTerminate => Some (p, [])
  end.

(** The goroutine started after the main loop: the reply to one event that
    arrives once the coordinator has left the loop. *)
Definition drain (rawEvt : programEvent) : list action :=
  match rawEvt with
  | programEventClientClose done _ => [ActCloseDone done]
  | programEventClientDescribe _ res => [ActSendBytes res []]
  | programEventClientAnnounce res _ _ => [ActSendErr res (Some "terminated"%string)]
  | programEventClientSetupPlay res _ _ _ _ _ => [ActSendErr res (Some "terminated"%string)]
  | programEventClientSetupRecord res _ _ _ _ => [ActSendErr res (Some "terminated"%string)]
  | programEventClientPlay1 res _ => [ActSendErr res (Some "terminated"%string)]
  | programEventClientPlay2 done _ => [ActCloseDone done]
  | programEventClientPlayStop done _ => [ActCloseDone done]
  | programEventClientRecord done _ => [ActCloseDone done]
  | programEventClientRecordStop done _ => [ActCloseDone done]
  | _ => []
  end.

(** What [run] does itself after the loop: close the sources, the listeners
    and the clients, then the two channels. *)
Definition shutdown (p : program) : list action :=
  (ActSourceClose <$> sources p)
  ++ [ActListenerClose rtspl; ActListenerClose rtcpl; ActListenerClose rtpl]
  ++ (ActClientClose <$> elements (clients p))
  ++ [ActCloseEvents; ActCloseProgramDone].

(** [run] on the events received on [p.events], in order.  The result is the
    last state, the effects of the coordinator goroutine, and the effects of
    the draining goroutine; the events after [programEventTerminate] are the
    ones the draining goroutine receives before [p.events] is closed. *)
Fixpoint run (p : program) (evts : list programEvent)
    : option (program * list action * list action) :=
  match evts with
  | [] => Some (p, [], [])
  | programEventTerminate :: rest =>
      Some (p, shutdown p, mjoin (drain <$> rest))
  | evt :: rest =>
      match handle p evt with
      | None => None
      | Some (p1, a) =>
          match run p1 rest with
          | None => None
          | Some (p2, b, d) => Some (p2, a ++ b, d)
          end
      end
  end.

End Coordinator.

(** ** Properties of a state *)


Definition playingClients (p : program) : nat :=
  size (filter (λ c, c_state (clientMem p c) = clientStatePlay) (clients p)).


(** A receiving client is one on the play side of the session state machine. *)
Definition receiving (c : serverClient) : bool :=
  bool_decide (c_state c = clientStatePrePlay)
  || bool_decide (c_state c = clientStatePlay).

(** Client [c] has set up no more tracks than the publisher registered at its
    path describes. *)
Definition withinSdp (p : program) (c : clientPtr) : bool :=
  match publishers p !! c_path (clientMem p c) with
  | Some pub =>
      bool_decide (length (c_streamTracks (clientMem p c))
                   ≤ length (MediaDescriptions (pubSdpParsed p pub)))%nat
  | None => true
  end.

Definition tracksWithinSdp (p : program) : Prop :=
  ∀ c, c ∈ clients p → receiving (clientMem p c) = true → withinSdp p c = true.

(** Everything of the state except the object of [client] and the fields
    listed separately in the statements (publishers and counters). *)
Definition sameButClient (client : clientPtr) (p p' : program) : Prop :=
  clients p' = clients p
  ∧ sources p' = sources p
  ∧ sourceMem p' = sourceMem p
  ∧ nextClient p' = nextClient p
  ∧ ∀ c, c ≠ client → clientMem p' c = clientMem p c.

(** The session-owned fields of a client object. *)
Definition sameIdentity (c c' : serverClient) : Prop :=
  c_ip c' = c_ip c ∧ c_zone c' = c_zone c
  ∧ c_streamSdpText c' = c_streamSdpText c
  ∧ c_streamSdpParsed c' = c_streamSdpParsed c
  ∧ c_writeBuf c' = c_writeBuf c.

(** A reply that refuses: an error, or the empty answer to a Describe. *)
Definition refusal (acts : list action) : Prop :=
  ∃ res, (∃ msg, acts = [ActSendErr res (Some msg)]) ∨ acts = [ActSendBytes res []].

(** [findPublisher]'s condition on a client and a track index. *)
Definition publishesFrom (p : program) (addr : UDPAddr) (streamType : StreamType)
    (c : clientPtr) (i : nat) : Prop :=
  let cl := clientMem p c in
  c_streamProtocol cl = streamProtocolUdp
  ∧ c_state cl = clientStateRecord
  ∧ c_ip cl = addrIP addr
  ∧ ∃ t, c_streamTracks cl !! i = Some t ∧ portOf streamType t = addrPort addr.

Definition isClientPublisher (p : program) (c : clientPtr) : Prop :=
  ∃ path, publishers p !! path = Some (pubClient c).

(** The receivers of a frame on [path]. *)
Definition isReceiver (p : program) (path : string) (c : clientPtr) : Prop :=
  c_path (clientMem p c) = path ∧ c_state (clientMem p c) = clientStatePlay.

#[global] Instance isReceiver_dec p path c : Decision (isReceiver p path c).
Proof. unfold isReceiver. apply _. Defined.

(** The write that a receiver is owed for a frame: for a UDP receiver a
    datagram on the listener of the stream type, to the port of its track
    [trackId]; for a TCP receiver an interleaved frame on its own queue. *)
Inductive writeFor (p : program) (trackId : Z) (streamType : StreamType)
    (frame : bytes) : clientPtr → action → Prop :=
  | writeFor_udp c t :
      c_streamProtocol (clientMem p c) = streamProtocolUdp →
      trackAt (c_streamTracks (clientMem p c)) trackId = Some t →
      writeFor p trackId streamType frame c
        (ActUdpWrite (udpListener streamType)
           {| addrIP := c_ip (clientMem p c);
              addrPort := portOf streamType t;
              addrZone := c_zone (clientMem p c) |} frame)
  | writeFor_tcp c :
      c_streamProtocol (clientMem p c) = streamProtocolTcp →
      writeFor p trackId streamType frame c
        (ActTcpFrame c trackId streamType frame).

(** A receiver to which [forwardFrame] can write without a panic. *)
Definition canWrite (p : program) (trackId : Z) (frame : bytes) (c : clientPtr) : Prop :=
  match c_streamProtocol (clientMem p c) with
  | streamProtocolUdp => is_Some (trackAt (c_streamTracks (clientMem p c)) trackId)
  | streamProtocolTcp => (length frame ≤ c_writeBuf (clientMem p c))%nat
  end.

(** The reply that the draining goroutine owes an event. *)
Inductive drainReply : programEvent → action → Prop :=
  | drainReply_close done c :
      drainReply (programEventClientClose done c) (ActCloseDone done)
  | drainReply_describe path res :
      drainReply (programEventClientDescribe path res) (ActSendBytes res [])
  | drainReply_announce res c path :
      drainReply (programEventClientAnnounce res c path)
        (ActSendErr res (Some "terminated"%string))
  | drainReply_setupPlay res c path pr a b :
      drainReply (programEventClientSetupPlay res c path pr a b)
        (ActSendErr res (Some "terminated"%string))
  | drainReply_setupRecord res c pr a b :
      drainReply (programEventClientSetupRecord res c pr a b)
        (ActSendErr res (Some "terminated"%string))
  | drainReply_play1 res c :
      drainReply (programEventClientPlay1 res c)
        (ActSendErr res (Some "terminated"%string))
  | drainReply_play2 done c :
      drainReply (programEventClientPlay2 done c) (ActCloseDone done)
  | drainReply_playStop done c :
      drainReply (programEventClientPlayStop done c) (ActCloseDone done)
  | drainReply_record done c :
      drainReply (programEventClientRecord done c) (ActCloseDone done)
  | drainReply_recordStop done c :
      drainReply (programEventClientRecordStop done c) (ActCloseDone done).

(** The events that carry a reply channel or a completion signal. *)
Definition awaitsReply (e : programEvent) : bool :=
  match e with
  | programEventClientClose _ _
  | programEventClientDescribe _ _
  | programEventClientAnnounce _ _ _
  | programEventClientSetupPlay _ _ _ _ _ _
  | programEventClientSetupRecord _ _ _ _ _
  | programEventClientPlay1 _ _
  | programEventClientPlay2 _ _
  | programEventClientPlayStop _ _
  | programEventClientRecord _ _
  | programEventClientRecordStop _ _ => true
  | _ => false
  end.

(** The receivers half of [countersAgree]. *)
Definition receiversAgree (p : program) : Prop :=
  receiverCount p = Z.of_nat (playingClients p).

Definition notPlaying (p : program) (c : clientPtr) : Prop :=
  c ∈ clients p → c_state (clientMem p c) ≠ clientStatePlay.

(** What the handlers leave to the sessions: no handler looks at the state
    of the client before it assigns one or moves receiverCount.  Play2 is
    expected for a connected client that is not playing yet, PlayStop for
    one that is, and the events that assign another state or drop the client
    for a client that is not playing; the object of a new client is not one
    of the set. *)
Definition playDiscipline (p : program) (e : programEvent) : Prop :=
  match e with
  | programEventClientNew _ => nextClient p ∉ clients p
  | programEventClientPlay2 _ c =>
      c ∈ clients p
      ∧ c_state (clientMem p c) ≠ clientStatePlay
      ∧ receiverCount p < maxInt
  | programEventClientPlayStop _ c =>
      c ∈ clients p ∧ c_state (clientMem p c) = clientStatePlay
  | programEventClientClose _ c
  | programEventClientAnnounce _ c _
  | programEventClientSetupPlay _ c _ _ _ _
  | programEventClientSetupRecord _ c _ _ _
  | programEventClientRecord _ c
  | programEventClientRecordStop _ c => notPlaying p c
  | _ => True
  end.

#[global] Instance canWrite_dec p trackId frame c : Decision (canWrite p trackId frame c).
Proof. unfold canWrite. destruct (c_streamProtocol (clientMem p c)); apply _. Defined.


(** ** Concrete states and traces *)

Module Fixture.

Definition bufSize : nat := 2048.

Definition peer : Conn := {| connIP := 3232235777%N; connZone := EmptyString |}.

Definition video : MediaDescription := {| MediaName := "video" |}.
Definition audio : MediaDescription := {| MediaName := "audio" |}.
Definition sdpOne : SessionDescription := {| MediaDescriptions := [video] |}.
Definition sdpTwo : SessionDescription := {| MediaDescriptions := [video; audio] |}.

Definition sdpBytes : bytes := [Byte.x76; Byte.x3d; Byte.x30].
Definition payload : bytes := [Byte.x80; Byte.x60; Byte.x00; Byte.x01].

(** A source configured on path cam, with the SDP of one media it got
    upstream, before it reports ready. *)
Definition camSource : source :=
  {| s_path := "cam"; s_ready := false; s_sdpText := sdpBytes; s_sdpParsed := sdpOne |}.

(** The program as [newProgram] leaves it for that configuration. *)
Definition started : program :=
  {| clients := ∅;
     sources := [0%nat];
     publishers := {[ "cam"%string := pubSource 0%nat ]};
     publisherCount := 0;
     receiverCount := 0;
     clientMem := λ _, newServerClient bufSize peer;
     sourceMem := λ _, camSource;
     nextClient := 0%nat |}.

(** A receiver connects and plays the source over TCP. *)
Definition playTrace : list programEvent :=
  [ programEventStreamerReady 0%nat;
    programEventClientNew peer;
    programEventClientSetupPlay 1%nat 0%nat "cam" streamProtocolTcp 0 1;
    programEventClientPlay1 2%nat 0%nat;
    programEventClientPlay2 3%nat 0%nat ].

(** The same over UDP, to the ports 5000 and 5001. *)
Definition playUdpTrace : list programEvent :=
  [ programEventStreamerReady 0%nat;
    programEventClientNew peer;
    programEventClientSetupPlay 1%nat 0%nat "cam" streamProtocolUdp 5000 5001;
    programEventClientPlay1 2%nat 0%nat;
    programEventClientPlay2 3%nat 0%nat ].

Definition stateAfter (evts : list programEvent) : program :=
  match run bufSize started evts with
  | Some (p, _, _) => p
  | None => started
  end.

(** A session that holds the SDP it announces. *)
Definition holding (sdp : SessionDescription) : serverClient :=
  {| c_path := EmptyString;
     c_state := clientStateInitial;
     c_streamProtocol := streamProtocolUdp;
     c_streamTracks := [];
     c_ip := connIP peer;
     c_zone := connZone peer;
     c_streamSdpText := sdpBytes;
     c_streamSdpParsed := sdp;
     c_writeBuf := bufSize |}.

(** Three connected clients, none of which has sent a request yet: client 0
    is about to publish two medias, client 2 one media, client 1 will play. *)
Definition lobby : program :=
  {| clients := {[ 0%nat; 1%nat; 2%nat ]};
     sources := [];
     publishers := ∅;
     publisherCount := 0;
     receiverCount := 0;
     clientMem := <[0%nat := holding sdpTwo]>
                    (<[2%nat := holding sdpOne]> (λ _, newServerClient bufSize peer));
     sourceMem := λ _, camSource;
     nextClient := 3%nat |}.

(** Client 0 publishes on path x and client 1 sets up both tracks to play
    it; client 0 disconnects and client 2 announces on the same path. *)
Definition replaceTrace : list programEvent :=
  [ programEventClientAnnounce 1%nat 0%nat "x";
    programEventClientSetupRecord 2%nat 0%nat streamProtocolTcp 0 1;
    programEventClientSetupRecord 3%nat 0%nat streamProtocolTcp 2 3;
    programEventClientRecord 4%nat 0%nat;
    programEventClientSetupPlay 5%nat 1%nat "x" streamProtocolTcp 0 1;
    programEventClientSetupPlay 6%nat 1%nat "x" streamProtocolTcp 2 3;
    programEventClientClose 7%nat 0%nat;
    programEventClientAnnounce 8%nat 2%nat "x" ].

Definition lobbyAfter (evts : list programEvent) : program :=
  match run bufSize lobby evts with
  | Some (p, _, _) => p
  | None => lobby
  end.

(** Client 0 announces on path x, sets up one UDP track that it sends from
    the ports 6000 and 6001, and records. *)
Definition recordUdpTrace : list programEvent :=
  [ programEventClientAnnounce 1%nat 0%nat "x";
    programEventClientSetupRecord 2%nat 0%nat streamProtocolUdp 6000 6001;
    programEventClientRecord 3%nat 0%nat ].

Definition recording : program := lobbyAfter recordUdpTrace.

Definition rtpFrom6000 : UDPAddr :=
  {| addrIP := connIP peer; addrPort := 6000; addrZone := EmptyString |}.

Definition playing : program := stateAfter playTrace.
Definition playingUdp : program := stateAfter playUdpTrace.

End Fixture.

(** ** Reading the stores after a write *)

Lemma clientMem_updClient_eq c f p :
  clientMem (updClient c f p) c = f (clientMem p c).
Proof. unfold updClient; simpl. apply fn_lookup_insert. Qed.

Lemma clientMem_updClient_ne c c' f p :
  c ≠ c' → clientMem (updClient c f p) c' = clientMem p c'.
Proof. intros Hne. unfold updClient; simpl. by apply fn_lookup_insert_ne. Qed.

Lemma updClient_fields c f p :
  clients (updClient c f p) = clients p
  ∧ sources (updClient c f p) = sources p
  ∧ publishers (updClient c f p) = publishers p
  ∧ publisherCount (updClient c f p) = publisherCount p
  ∧ receiverCount (updClient c f p) = receiverCount p
  ∧ sourceMem (updClient c f p) = sourceMem p
  ∧ nextClient (updClient c f p) = nextClient p.
Proof. by repeat split. Qed.

Ltac store_simpl :=
  unfold updClient, updSource; simpl;
  repeat first
    [ rewrite fn_lookup_insert
    | rewrite fn_lookup_insert_ne by congruence ];
  simpl.

Lemma wrapInt_id z : inInt z → wrapInt z = z.
Proof.
  unfold inInt, minInt, maxInt, wrapInt. intros [Hlo Hhi].
  rewrite Z.mod_small; lia.
Qed.

Lemma wrapInt_inInt z : inInt (wrapInt z).
Proof.
  unfold inInt, minInt, maxInt, wrapInt.
  pose proof (Z.mod_pos_bound (z + 2 ^ 63) (2 ^ 64)). lia.
Qed.

(** ** Announce *)

(** C2: an Announce is answered with an error exactly when the publishers
    map already has an entry for the path, and the error says that someone is
    already publishing on it; otherwise the client's path and state are set,
    the client is registered as the publisher of the path, and the answer is
    nil. *)
Theorem announce_spec (wbs : nat) (p : program) (res : chan)
    (client : clientPtr) (path : string) :
  ∃ p' err,
    handle wbs p (programEventClientAnnounce res client path)
      = Some (p', [ActSendErr res err])
    ∧ (is_Some err ↔ is_Some (publishers p !! path))
    ∧ (is_Some err →
         err = Some (String.append "someone is already publishing on path '"
                       (String.append path "'"))
         ∧ p' = p)
    ∧ (err = None →
         c_path (clientMem p' client) = path
         ∧ c_state (clientMem p' client) = clientStateAnnounce
         ∧ publishers p' = <[path := pubClient client]> (publishers p)
         ∧ c_streamProtocol (clientMem p' client) = c_streamProtocol (clientMem p client)
         ∧ c_streamTracks (clientMem p' client) = c_streamTracks (clientMem p client)
         ∧ sameIdentity (clientMem p client) (clientMem p' client)
         ∧ publisherCount p' = publisherCount p
         ∧ receiverCount p' = receiverCount p
         ∧ sameButClient client p p').
Proof.
  simpl. destruct (publishers p !! path) as [pub|] eqn:Hpub.
  - eexists _, _. split; [reflexivity|]. split; [|split].
    + split; eauto.
    + intros _. done.
    + discriminate.
  - eexists _, _. split; [reflexivity|]. split; [|split].
    + split; intros [? ?]; discriminate.
    + intros [? ?]; discriminate.
    + intros _. store_simpl.
      repeat split; try reflexivity.
      intros c Hc. by store_simpl.
Qed.

(** ** SetupRecord *)

(** C3, as the code has it: a SetupRecord is never refused.  Whatever the
    state of the client, one track with the two ports is appended to its
    tracks, its protocol is set, its state becomes PRE_RECORD and the answer
    is nil; its path and everything else in the coordinator stay as they
    were. *)
Theorem setupRecord_spec (wbs : nat) (p : program) (res : chan)
    (client : clientPtr) (protocol : streamProtocol) (rtp rtcp : Z) :
  ∃ p',
    handle wbs p (programEventClientSetupRecord res client protocol rtp rtcp)
      = Some (p', [ActSendErr res None])
    ∧ c_streamTracks (clientMem p' client)
      = c_streamTracks (clientMem p client) ++ [{| rtpPort := rtp; rtcpPort := rtcp |}]
    ∧ c_streamProtocol (clientMem p' client) = protocol
    ∧ c_state (clientMem p' client) = clientStatePreRecord
    ∧ c_path (clientMem p' client) = c_path (clientMem p client)
    ∧ sameIdentity (clientMem p client) (clientMem p' client)
    ∧ publishers p' = publishers p
    ∧ publisherCount p' = publisherCount p
    ∧ receiverCount p' = receiverCount p
    ∧ sameButClient client p p'.
Proof.
  eexists. split; [reflexivity|].
  store_simpl. repeat split; try reflexivity.
  intros c Hc. by store_simpl.
Qed.

(** C3, as it is stated, fails: a client that has just connected (state
    INITIAL) sends a SetupRecord and is not answered with an error. *)
Lemma setupRecord_initial_not_refused :
  c_state (clientMem (Fixture.stateAfter [programEventClientNew Fixture.peer]) 0%nat)
    = clientStateInitial
  ∧ ¬ ∃ p' msg,
      handle Fixture.bufSize
        (Fixture.stateAfter [programEventClientNew Fixture.peer])
        (programEventClientSetupRecord 9%nat 0%nat streamProtocolTcp 0 1)
      = Some (p', [ActSendErr 9%nat (Some msg)]).
Proof.
  split; [reflexivity|].
  intros (p' & msg & H). simpl in H. congruence.
Qed.

(** ** Describe *)

(** C4: a Describe is answered with the SDP text of the publisher registered
    at the path when that publisher is ready, byte for byte, and with the
    empty answer in every other case; the coordinator state is the same after
    the event. *)
Theorem describe_spec (wbs : nat) (p : program) (path : string) (res : chan) :
  ∃ reply,
    handle wbs p (programEventClientDescribe path res)
      = Some (p, [ActSendBytes res reply])
    ∧ (∀ pub, publishers p !! path = Some pub → pubIsReady p pub = true →
         reply = pubSdpText p pub)
    ∧ ((∀ pub, publishers p !! path = Some pub → pubIsReady p pub = false) →
         reply = []).
Proof.
  simpl. destruct (publishers p !! path) as [pub|] eqn:Hpub.
  - destruct (pubIsReady p pub) eqn:Hready.
    + eexists. split; [reflexivity|]. split.
      * intros pub' [= <-] _. reflexivity.
      * intros Hno. specialize (Hno pub eq_refl). congruence.
    + eexists. split; [reflexivity|]. split.
      * intros pub' [= <-] ?. congruence.
      * reflexivity.
  - eexists. split; [reflexivity|]. split.
    + intros pub' [=].
    + reflexivity.
Qed.

(** ** Play1 *)

(** X7: a Play1 never changes the state; it is answered with nil exactly when
    a publisher is registered at the client's path, the publisher is ready,
    and the client has set up as many tracks as the publisher's SDP has media
    descriptions; otherwise it is answered with an error. *)
Lemma play1_spec (wbs : nat) (p : program) (res : chan) (client : clientPtr) :
  ∃ err,
    handle wbs p (programEventClientPlay1 res client) = Some (p, [ActSendErr res err])
    ∧ (err = None ↔
         ∃ pub, publishers p !! c_path (clientMem p client) = Some pub
                ∧ pubIsReady p pub = true
                ∧ length (c_streamTracks (clientMem p client))
                  = length (MediaDescriptions (pubSdpParsed p pub))).
Proof.
  simpl. destruct (publishers p !! c_path (clientMem p client)) as [pub|] eqn:Hpub.
  - destruct (pubIsReady p pub) eqn:Hready; simpl.
    + case_decide as Hlen.
      * eexists. split; [reflexivity|]. split; [discriminate|].
        intros (pub' & [= <-] & _ & ?). congruence.
      * eexists. split; [reflexivity|]. split; [|done].
        intros _. exists pub. repeat split; [done|]. 
        destruct (decide (length (c_streamTracks (clientMem p client))
                          = length (MediaDescriptions (pubSdpParsed p pub)))); [done|].
        by destruct Hlen.
    + eexists. split; [reflexivity|]. split; [discriminate|].
      intros (pub' & [= <-] & ? & _). congruence.
  - eexists. split; [reflexivity|]. split; [discriminate|].
    intros (pub' & [=] & _).
Qed.

(** ** Refusals *)

Lemma app_singleton_inv {A} (l : list A) (x y : A) : l ++ [x] = [y] → l = [] ∧ x = y.
Proof.
  destruct l as [|a l]; simpl.
  - by intros [= ->].
  - intros [= _ H]. by destruct l.
Qed.

(** C10: whenever a handler answers with an error, or with the empty answer
    to a Describe, the state after the event is the state before it: the
    clients set, the publishers map, both counters and every client object,
    the requester's included. *)
Theorem refusal_leaves_state (wbs : nat) (p p' : program) (evt : programEvent)
    (acts : list action) :
  handle wbs p evt = Some (p', acts) → refusal acts → p' = p.
Proof.
  intros Hh [res Href].
  destruct evt; simpl in Hh;
    repeat match type of Hh with
           | context [match ?x with _ => _ end] => destruct x eqn:?; simpl in Hh
           end;
    try discriminate; injection Hh as <- <-; try reflexivity;
    destruct Href as [[msg Href]|Href]; try discriminate Href;
    try (apply app_singleton_inv in Href as [_ ?]; discriminate).
Qed.

Lemma refusal_leaves_state_witness :
  ∃ p' acts,
    handle Fixture.bufSize Fixture.started
      (programEventClientAnnounce 5%nat 0%nat "cam") = Some (p', acts)
    ∧ refusal acts
    ∧ p' = Fixture.started.
Proof.
  eexists _, _. split; [reflexivity|]. split.
  - exists 5%nat. left. eexists. reflexivity.
  - eapply (refusal_leaves_state Fixture.bufSize Fixture.started _
              (programEventClientAnnounce 5%nat 0%nat "cam")).
    + reflexivity.
    + exists 5%nat. left. eexists. reflexivity.
Defined.

(** ** SetupPlay *)

Lemma pubSdpParsed_sameIdentity (p p' : program) :
  sourceMem p' = sourceMem p →
  (∀ c, c_streamSdpParsed (clientMem p' c) = c_streamSdpParsed (clientMem p c)) →
  ∀ pub, pubSdpParsed p' pub = pubSdpParsed p pub.
Proof.
  intros Hs Hc [c|s]; simpl.
  - apply Hc.
  - by rewrite Hs.
Qed.

(** C5, as the code has it: a SetupPlay is answered with an error when no
    publisher is registered at the path or the registered one is not ready,
    and when the client already has at least as many tracks as the
    publisher's SDP has media descriptions; otherwise one track is appended,
    the client's path and protocol are set, its state becomes PRE_PLAY and
    the answer is nil.  After a SetupPlay that is answered with nil the
    client has no more tracks than the publisher registered at its path
    describes, and no SetupPlay changes that relation for another client. *)
Theorem setupPlay_spec (wbs : nat) (p : program) (res : chan) (client : clientPtr)
    (path : string) (protocol : streamProtocol) (rtp rtcp : Z) :
  ∃ p' err,
    handle wbs p (programEventClientSetupPlay res client path protocol rtp rtcp)
      = Some (p', [ActSendErr res err])
    ∧ ((∀ pub, publishers p !! path = Some pub → pubIsReady p pub = false) →
         err = Some (String.append "no one is streaming on path '"
                       (String.append path "'"))
         ∧ p' = p)
    ∧ (∀ pub, publishers p !! path = Some pub → pubIsReady p pub = true →
         ((length (MediaDescriptions (pubSdpParsed p pub))
           ≤ length (c_streamTracks (clientMem p client)))%nat →
            err = Some "all the tracks have already been setup"%string ∧ p' = p)
         ∧ ((length (c_streamTracks (clientMem p client))
             < length (MediaDescriptions (pubSdpParsed p pub)))%nat →
            err = None
            ∧ c_streamTracks (clientMem p' client)
              = c_streamTracks (clientMem p client)
                ++ [{| rtpPort := rtp; rtcpPort := rtcp |}]
            ∧ c_path (clientMem p' client) = path
            ∧ c_streamProtocol (clientMem p' client) = protocol
            ∧ c_state (clientMem p' client) = clientStatePrePlay
            ∧ sameIdentity (clientMem p client) (clientMem p' client)
            ∧ publishers p' = publishers p
            ∧ publisherCount p' = publisherCount p
            ∧ receiverCount p' = receiverCount p
            ∧ sameButClient client p p'))
    ∧ (err = None → withinSdp p' client = true)
    ∧ (∀ c, c ≠ client → withinSdp p' c = withinSdp p c).
Proof.
  simpl. destruct (publishers p !! path) as [pub|] eqn:Hpub;
    [destruct (pubIsReady p pub) eqn:Hready; simpl; [case_decide as Hlen|]|].
  - (* all the tracks are set up *)
    eexists _, _. split; [reflexivity|]. split; [|split; [|split]].
    + intros Hno. specialize (Hno pub eq_refl). congruence.
    + intros pub' [= <-] _. split; [done|]. intros Hlt. lia.
    + discriminate.
    + done.
  - (* one more track *)
    eexists _, _. split; [reflexivity|]. split; [|split; [|split]].
    + intros Hno. specialize (Hno pub eq_refl). congruence.
    + intros pub' [= <-] _. split; [intros; lia|]. intros _.
      store_simpl. repeat split; try reflexivity.
      intros c Hc. by store_simpl.
    + intros _. unfold withinSdp. store_simpl. rewrite Hpub.
      apply bool_decide_eq_true.
      replace (pubSdpParsed _ pub) with (pubSdpParsed p pub).
      * rewrite length_app. simpl. lia.
      * symmetry. apply pubSdpParsed_sameIdentity; [done|].
        intros c. destruct (decide (client = c)) as [->|Hne]; store_simpl; done.
    + intros c Hc. unfold withinSdp. store_simpl.
      destruct (publishers p !! c_path (clientMem p c)) as [pub'|]; [|done].
      match goal with
      | |- context [pubSdpParsed ?q pub'] =>
          rewrite (pubSdpParsed_sameIdentity p q); [done|done|]
      end.
      intros c'. destruct (decide (client = c')) as [->|Hne]; store_simpl; done.
  - (* the publisher is not ready *)
    eexists _, _. split; [reflexivity|]. split; [|split; [|split]].
    + done.
    + intros pub' [= <-] ?. congruence.
    + discriminate.
    + done.
  - (* no publisher *)
    eexists _, _. split; [reflexivity|]. split; [|split; [|split]].
    + done.
    + intros pub' [=].
    + discriminate.
    + done.
Qed.

(** C5, as it is stated, fails: the bound on the tracks of a receiving
    client does not hold at all times.  From three idle clients, client 0
    publishes two medias on path x, client 1 sets up both tracks to play
    them, client 0 disconnects and client 2 announces one media on x: client
    1 is still a receiving client on x with two tracks. *)
Lemma tracks_exceed_after_publisher_change :
  tracksWithinSdp Fixture.lobby
  ∧ ∃ q a d,
      run Fixture.bufSize Fixture.lobby Fixture.replaceTrace = Some (q, a, d)
      ∧ 1%nat ∈ clients q
      ∧ receiving (clientMem q 1%nat) = true
      ∧ publishers q !! c_path (clientMem q 1%nat) = Some (pubClient 2%nat)
      ∧ length (c_streamTracks (clientMem q 1%nat)) = 2%nat
      ∧ length (MediaDescriptions (pubSdpParsed q (pubClient 2%nat))) = 1%nat
      ∧ ¬ tracksWithinSdp q.
Proof.
  split.
  - intros c Hc Hr. exfalso.
    assert (c = 0 ∨ c = 1 ∨ c = 2)%nat as [ -> | [ -> | -> ] ]
      by (unfold Fixture.lobby in Hc; simpl in Hc;
          rewrite !elem_of_union, !elem_of_singleton in Hc; tauto);
      vm_compute in Hr; discriminate.
  - eexists _, _, _. split; [vm_compute; reflexivity|].
    match goal with
    | |- 1%nat ∈ clients ?q ∧ receiving (clientMem ?q 1%nat) = true ∧ _ =>
        assert (1%nat ∈ clients q) as Hin by (vm_compute; reflexivity);
        assert (receiving (clientMem q 1%nat) = true) as Hrecv
          by (vm_compute; reflexivity)
    end.
    split; [exact Hin|]. split; [exact Hrecv|].
    split; [vm_compute; reflexivity|]. split; [vm_compute; reflexivity|].
    split; [vm_compute; reflexivity|].
    intros Hall. specialize (Hall 1%nat Hin Hrecv).
    vm_compute in Hall. discriminate.
Qed.

(** ** The lookup of a publisher by its UDP address *)

Lemma findTrack_Some streamType port tracks i0 i :
  findTrack streamType port tracks i0 = Some i →
  (i0 ≤ i)%nat
  ∧ ∃ t, tracks !! (i - i0)%nat = Some t ∧ portOf streamType t = port.
Proof.
  revert i0. induction tracks as [|t rest IH]; intros i0; simpl; [discriminate|].
  case_bool_decide as Hport.
  - intros [= <-]. split; [lia|]. exists t. by rewrite Nat.sub_diag.
  - intros Hfind. apply IH in Hfind as (Hle & t' & Hlook & Ht').
    split; [lia|]. exists t'. split; [|done].
    replace (i - i0)%nat with (S (i - S i0)) by lia. done.
Qed.

Lemma findTrack_None streamType port tracks i0 :
  findTrack streamType port tracks i0 = None →
  ∀ j t, tracks !! j = Some t → portOf streamType t ≠ port.
Proof.
  revert i0. induction tracks as [|t rest IH]; intros i0; simpl.
  - intros _ j t' Hj. by rewrite lookup_nil in Hj.
  - case_bool_decide as Hport; [discriminate|].
    intros Hfind [|j] t'; simpl.
    + by intros [= <-].
    + by apply (IH (S i0)).
Qed.

Lemma skipsClient_false cl addr :
  skipsClient cl addr = false ↔
  c_streamProtocol cl = streamProtocolUdp
  ∧ c_state cl = clientStateRecord
  ∧ c_ip cl = addrIP addr.
Proof.
  unfold skipsClient.
  rewrite !orb_false_iff, negb_false_iff, !bool_decide_eq_false, bool_decide_eq_true.
  split.
  - intros [[H1 H2] H3]. repeat split; [|  |done].
    + by destruct (decide (c_streamProtocol cl = streamProtocolUdp)).
    + by destruct (decide (c_state cl = clientStateRecord)).
  - intros (H1 & H2 & H3). repeat split; auto.
Qed.

Lemma findPublisherIn_sound p order addr streamType c i :
  findPublisherIn p order addr streamType = Some (c, i) →
  (∃ path, (path, pubClient c) ∈ order) ∧ publishesFrom p addr streamType c i.
Proof.
  induction order as [|[path pub] rest IH]; simpl; [discriminate|].
  assert (findPublisherIn p rest addr streamType = Some (c, i) →
          (∃ path0, (path0, pubClient c) ∈ (path, pub) :: rest)
          ∧ publishesFrom p addr streamType c i) as Hrest.
  { intros H. apply IH in H as [[path0 Hin] Hpub]. split; [|done].
    exists path0. apply elem_of_cons. by right. }
  destruct pub as [c0|s0]; [|done].
  destruct (skipsClient (clientMem p c0) addr) eqn:Hskip; [done|].
  destruct (findTrack streamType (addrPort addr) (c_streamTracks (clientMem p c0)) 0)
    as [i0|] eqn:Hfind; [|done].
  intros [= <- <-]. split.
  - exists path. apply elem_of_cons. by left.
  - apply skipsClient_false in Hskip as (H1 & H2 & H3).
    apply findTrack_Some in Hfind as (_ & t & Hlook & Hport).
    rewrite Nat.sub_0_r in Hlook.
    unfold publishesFrom. eauto 10.
Qed.

Lemma findPublisherIn_complete p order addr streamType path c i :
  (path, pubClient c) ∈ order →
  publishesFrom p addr streamType c i →
  is_Some (findPublisherIn p order addr streamType).
Proof.
  intros Hin (H1 & H2 & H3 & t & Hlook & Hport).
  induction order as [|[path0 pub] rest IH]; [by apply elem_of_nil in Hin|].
  simpl. apply elem_of_cons in Hin as [[= <- <-]|Hin].
  - assert (skipsClient (clientMem p c) addr = false) as ->
      by (apply skipsClient_false; done).
    destruct (findTrack streamType (addrPort addr) (c_streamTracks (clientMem p c)) 0)
      as [i0|] eqn:Hfind; [eauto|].
    exfalso. by eapply findTrack_None.
  - destruct pub as [c0|s0]; [|auto].
    destruct (skipsClient (clientMem p c0) addr); [auto|].
    destruct (findTrack streamType (addrPort addr) (c_streamTracks (clientMem p c0)) 0);
      eauto.
Qed.

(** C6: in whatever order the publishers map is visited, the lookup returns
    a pair exactly when some client registered in the map streams over UDP,
    is in state RECORD, has the peer's IP and has a track whose port for the
    stream type is the peer's port; the pair returned is such a client and
    such a track index, so a source is never returned; and when the lookup
    returns nothing the FrameUdp event changes nothing and writes nothing. *)
Theorem findPublisher_spec (wbs : nat) (p : program)
    (order : list (string * publisher)) (addr : UDPAddr)
    (streamType : StreamType) (buf : bytes) :
  order ≡ₚ map_to_list (publishers p) →
  (∀ c i, findPublisherIn p order addr streamType = Some (c, i) →
     isClientPublisher p c ∧ publishesFrom p addr streamType c i)
  ∧ (is_Some (findPublisherIn p order addr streamType) ↔
     ∃ c i, isClientPublisher p c ∧ publishesFrom p addr streamType c i)
  ∧ (findPublisher p addr streamType = None →
     handle wbs p (programEventClientFrameUdp addr streamType buf) = Some (p, [])).
Proof.
  intros Hperm.
  assert (∀ path pub, (path, pub) ∈ order ↔ publishers p !! path = Some pub) as Hmem.
  { intros path pub. rewrite Hperm. apply elem_of_map_to_list. }
  assert (∀ c i, findPublisherIn p order addr streamType = Some (c, i) →
            isClientPublisher p c ∧ publishesFrom p addr streamType c i) as Hsound.
  { intros c i Hfind. apply findPublisherIn_sound in Hfind as [[path Hin] Hpub].
    split; [|done]. exists path. by apply Hmem. }
  split; [exact Hsound|]. split.
  - split.
    + intros [[c i] Hfind]. exists c, i. by apply Hsound.
    + intros (c & i & [path Hpath] & Hpub).
      eapply findPublisherIn_complete; [|done]. by apply Hmem.
  - intros Hnone. simpl. by rewrite Hnone.
Qed.

Lemma findPublisher_spec_witness :
  map_to_list (publishers Fixture.recording)
    ≡ₚ map_to_list (publishers Fixture.recording)
  ∧ findPublisherIn Fixture.recording (map_to_list (publishers Fixture.recording))
      Fixture.rtpFrom6000 StreamTypeRtp = Some (0%nat, 0%nat)
  ∧ isClientPublisher Fixture.recording 0%nat
  ∧ publishesFrom Fixture.recording Fixture.rtpFrom6000 StreamTypeRtp 0%nat 0%nat.
Proof.
  split; [reflexivity|].
  assert (findPublisherIn Fixture.recording
            (map_to_list (publishers Fixture.recording))
            Fixture.rtpFrom6000 StreamTypeRtp = Some (0%nat, 0%nat)) as Hfind
    by (vm_compute; reflexivity).
  split; [exact Hfind|].
  exact (proj1 (findPublisher_spec Fixture.bufSize Fixture.recording
                  (map_to_list (publishers Fixture.recording))
                  Fixture.rtpFrom6000 StreamTypeRtp Fixture.payload
                  (reflexivity _)) 0%nat 0%nat Hfind).
Defined.

(** ** Forwarding a frame *)

Lemma forwardTo_other p c path trackId streamType frame :
  ¬ isReceiver p path c →
  forwardTo p c path trackId streamType frame = Some [].
Proof.
  intros Hnot. unfold forwardTo, isReceiver in *.
  do 2 case_bool_decide; simpl; try done. by destruct Hnot.
Qed.

Lemma forwardTo_receiver p c path trackId streamType frame :
  isReceiver p path c →
  canWrite p trackId frame c →
  ∃ w, forwardTo p c path trackId streamType frame = Some [w]
       ∧ writeFor p trackId streamType frame c w.
Proof.
  intros [Hpath Hstate] Hcan. unfold forwardTo, canWrite in *.
  rewrite !bool_decide_eq_true_2 by done. simpl.
  destruct (c_streamProtocol (clientMem p c)) eqn:Hproto.
  - destruct Hcan as [t Ht]. rewrite Ht. eexists. split; [reflexivity|].
    by apply writeFor_udp.
  - rewrite decide_True by done. eexists. split; [reflexivity|].
    by apply writeFor_tcp.
Qed.

Lemma forwardTo_panic p c path trackId streamType frame :
  isReceiver p path c →
  ¬ canWrite p trackId frame c →
  forwardTo p c path trackId streamType frame = None.
Proof.
  intros [Hpath Hstate] Hcan. unfold forwardTo, canWrite in *.
  rewrite !bool_decide_eq_true_2 by done. simpl.
  destruct (c_streamProtocol (clientMem p c)) eqn:Hproto.
  - destruct (trackAt (c_streamTracks (clientMem p c)) trackId); [|done].
    destruct Hcan. eauto.
  - by rewrite decide_False.
Qed.

Lemma forwardFrameIn_ok p order path trackId streamType frame :
  (∀ c, c ∈ order → isReceiver p path c → canWrite p trackId frame c) →
  ∃ writes,
    forwardFrameIn p order path trackId streamType frame = Some writes
    ∧ Forall2 (writeFor p trackId streamType frame)
        (filter (isReceiver p path) order) writes.
Proof.
  induction order as [|c rest IH]; intros Hcan; simpl.
  - exists []. split; [done|]. constructor.
  - destruct IH as (ws & Hrest & Hall).
    { intros c' Hin. apply Hcan. apply elem_of_cons. by right. }
    rewrite Hrest. rewrite filter_cons.
    destruct (decide (isReceiver p path c)) as [Hrecv|Hnot].
    + destruct (forwardTo_receiver p c path trackId streamType frame Hrecv)
        as (w & -> & Hw).
      { apply Hcan; [|done]. apply elem_of_cons. by left. }
      exists (w :: ws). split; [done|]. by constructor.
    + rewrite forwardTo_other by done. exists ws. by split.
Qed.

Lemma forwardFrameIn_panic p order path trackId streamType frame c :
  c ∈ order → isReceiver p path c → ¬ canWrite p trackId frame c →
  forwardFrameIn p order path trackId streamType frame = None.
Proof.
  intros Hin Hrecv Hcan.
  induction order as [|c0 rest IH]; [by apply elem_of_nil in Hin|].
  simpl. apply elem_of_cons in Hin as [<-|Hin].
  - by rewrite forwardTo_panic.
  - rewrite IH by done. by destruct (forwardTo p c0 path trackId streamType frame).
Qed.

(** C7, as the code has it: when the track index is within the tracks of
    every UDP receiver of the path and the frame fits the write buffer of
    every TCP receiver, forwarding writes once for each client of the set
    that has the path and is in state PLAY, in whatever order the set is
    visited, and for no other client; the write for a UDP receiver goes to
    the listener of the stream type, to the receiver's IP and the RTP or RTCP
    port of its track at the index, with the bytes of the frame. *)
Theorem forwardFrame_spec (p : program) (order : list clientPtr) (path : string)
    (trackId : Z) (streamType : StreamType) (frame : bytes) :
  order ≡ₚ elements (clients p) →
  (∀ c, c ∈ clients p → isReceiver p path c → canWrite p trackId frame c) →
  ∃ writes,
    forwardFrameIn p order path trackId streamType frame = Some writes
    ∧ Forall2 (writeFor p trackId streamType frame)
        (filter (isReceiver p path) order) writes
    ∧ NoDup (filter (isReceiver p path) order)
    ∧ ∀ c, c ∈ filter (isReceiver p path) order ↔
           c ∈ clients p ∧ isReceiver p path c.
Proof.
  intros Hperm Hcan.
  assert (∀ c, c ∈ order ↔ c ∈ clients p) as Hmem.
  { intros c. rewrite Hperm. apply elem_of_elements. }
  destruct (forwardFrameIn_ok p order path trackId streamType frame)
    as (writes & Hrun & Hall).
  { intros c Hin. apply Hcan. by apply Hmem. }
  exists writes. split; [done|]. split; [done|]. split.
  - apply list.NoDup_filter. rewrite Hperm. apply NoDup_elements.
  - intros c. rewrite list_elem_of_filter, Hmem. tauto.
Qed.

Lemma forwardFrame_spec_witness :
  elements (clients Fixture.playingUdp) ≡ₚ elements (clients Fixture.playingUdp)
  ∧ (∀ c, c ∈ clients Fixture.playingUdp →
          isReceiver Fixture.playingUdp "cam" c →
          canWrite Fixture.playingUdp 0 Fixture.payload c)
  ∧ ∃ writes,
      forwardFrameIn Fixture.playingUdp (elements (clients Fixture.playingUdp))
        "cam" 0 StreamTypeRtp Fixture.payload = Some writes
      ∧ Forall2 (writeFor Fixture.playingUdp 0 StreamTypeRtp Fixture.payload)
          (filter (isReceiver Fixture.playingUdp "cam")
             (elements (clients Fixture.playingUdp))) writes
      ∧ NoDup (filter (isReceiver Fixture.playingUdp "cam")
                 (elements (clients Fixture.playingUdp)))
      ∧ ∀ c, c ∈ filter (isReceiver Fixture.playingUdp "cam")
                   (elements (clients Fixture.playingUdp)) ↔
             c ∈ clients Fixture.playingUdp ∧ isReceiver Fixture.playingUdp "cam" c.
Proof.
  assert (∀ c, c ∈ clients Fixture.playingUdp →
               isReceiver Fixture.playingUdp "cam" c →
               canWrite Fixture.playingUdp 0 Fixture.payload c) as Hcan.
  { intros c Hc _.
    assert (clients Fixture.playingUdp = {[ 0%nat ]}) as Hset
      by (vm_compute; reflexivity).
    rewrite Hset in Hc. apply elem_of_singleton in Hc. subst c.
    vm_compute. eexists. reflexivity. }
  split; [reflexivity|]. split; [exact Hcan|].
  exact (forwardFrame_spec Fixture.playingUdp
           (elements (clients Fixture.playingUdp)) "cam" 0 StreamTypeRtp
           Fixture.payload (reflexivity _) Hcan).
Defined.

(** C7, as it is stated, fails: a frame whose track index is not a track of
    a UDP receiver is not forwarded, the indexing panics.  The receiver of
    path cam is in state PLAY with one track; a frame on track 1 of cam
    produces no write. *)
Lemma forwardFrame_panics_on_missing_track :
  0%nat ∈ clients Fixture.playingUdp
  ∧ isReceiver Fixture.playingUdp "cam" 0%nat
  ∧ c_streamProtocol (clientMem Fixture.playingUdp 0%nat) = streamProtocolUdp
  ∧ length (c_streamTracks (clientMem Fixture.playingUdp 0%nat)) = 1%nat
  ∧ forwardFrame Fixture.playingUdp "cam" 1 StreamTypeRtp Fixture.payload = None
  ∧ handle Fixture.bufSize Fixture.playingUdp
      (programEventStreamerFrame 0%nat 1 StreamTypeRtp Fixture.payload) = None.
Proof.
  split; [vm_compute; reflexivity|].
  split; [split; vm_compute; reflexivity|].
  repeat split; vm_compute; reflexivity.
Qed.

(** ** RecordStop *)

Lemma elem_of_closeAll order cond a :
  a ∈ closeAll order cond ↔ ∃ oc, a = ActGoClose oc ∧ oc ∈ order ∧ cond oc = true.
Proof.
  unfold closeAll. rewrite list_elem_of_fmap. split.
  - intros (oc & -> & Hin). apply list_elem_of_filter in Hin as [Hc Hin]. eauto.
  - intros (oc & -> & Hin & Hc). exists oc. split; [done|].
    by apply list_elem_of_filter.
Qed.

#[global] Instance ActGoClose_inj : Inj (=) (=) ActGoClose.
Proof. by intros c1 c2 [= ->]. Qed.

Lemma NoDup_closeAll order cond : NoDup order → NoDup (closeAll order cond).
Proof.
  intros Hnd. unfold closeAll. apply (NoDup_fmap_2 ActGoClose).
  by apply list.NoDup_filter.
Qed.

(** C8: a RecordStop decrements publisherCount by one (in the arithmetic of
    int, which is the predecessor unless the counter is at the least int),
    puts the client in state PRE_RECORD, and starts a close, once, for each
    client of the set other than the requester whose path is the requester's
    path, and for no other client; the publishers map, the clients set and
    receiverCount are as before, and the signal is closed last. *)
Theorem recordStop_spec (wbs : nat) (p : program) (done : chan) (client : clientPtr) :
  ∃ p' closes,
    handle wbs p (programEventClientRecordStop done client)
      = Some (p', closes ++ [ActCloseDone done])
    ∧ publisherCount p' = intSub (publisherCount p) 1
    ∧ (minInt < publisherCount p ≤ maxInt → publisherCount p' = publisherCount p - 1)
    ∧ c_state (clientMem p' client) = clientStatePreRecord
    ∧ c_path (clientMem p' client) = c_path (clientMem p client)
    ∧ publishers p' = publishers p
    ∧ clients p' = clients p
    ∧ receiverCount p' = receiverCount p
    ∧ sameButClient client p p'
    ∧ NoDup closes
    ∧ ∀ a, a ∈ closes ↔
           ∃ oc, a = ActGoClose oc
                 ∧ oc ∈ clients p
                 ∧ oc ≠ client
                 ∧ c_path (clientMem p oc) = c_path (clientMem p client).
Proof.
  eexists _, _. split; [reflexivity|].
  split; [reflexivity|]. split.
  { intros Hrange. simpl. unfold intSub. apply wrapInt_id.
    unfold inInt, minInt, maxInt in *. lia. }
  store_simpl. split; [reflexivity|]. split; [reflexivity|].
  split; [reflexivity|]. split; [reflexivity|]. split; [reflexivity|].
  split.
  { repeat split; try reflexivity. intros c Hc. by store_simpl. }
  split.
  { apply NoDup_closeAll, NoDup_elements. }
  intros a. rewrite elem_of_closeAll. split.
  - intros (oc & -> & Hin & Hcond). exists oc. split; [done|].
    apply elem_of_elements in Hin.
    apply andb_true_iff in Hcond as [Hne Hpath].
    apply bool_decide_eq_true in Hne. apply bool_decide_eq_true in Hpath.
    rewrite fn_lookup_insert_ne in Hpath by congruence.
    simpl in Hpath. done.
  - intros (oc & -> & Hin & Hne & Hpath). exists oc. split; [done|].
    split; [by apply elem_of_elements|].
    apply andb_true_iff. split; apply bool_decide_eq_true; [done|].
    rewrite fn_lookup_insert_ne by congruence. simpl. done.
Qed.

(** ** After Terminate *)

Lemma run_cons wbs p e rest :
  e ≠ programEventTerminate →
  run wbs p (e :: rest)
  = match handle wbs p e with
    | None => None
    | Some (p1, a) =>
        match run wbs p1 rest with
        | None => None
        | Some (p2, b, d) => Some (p2, a ++ b, d)
        end
    end.
Proof. intros Hne. by destruct e. Qed.

Lemma not_elem_of_cons_inv {A} (x y : A) (l : list A) :
  x ∉ y :: l → y ≠ x ∧ x ∉ l.
Proof.
  intros Hno. split.
  - intros ->. apply Hno, elem_of_cons. by left.
  - intros Hin. apply Hno, elem_of_cons. by right.
Qed.

Lemma run_no_terminate wbs p evts p1 a d :
  programEventTerminate ∉ evts →
  run wbs p evts = Some (p1, a, d) → d = [].
Proof.
  revert p a. induction evts as [|e rest IH]; intros p a Hno.
  - simpl. by intros [= _ _ <-].
  - apply not_elem_of_cons_inv in Hno as [Hne Hrest].
    rewrite run_cons by done.
    destruct (handle wbs p e) as [[p0 a0]|]; [|discriminate].
    destruct (run wbs p0 rest) as [[[p2 b] d0]|] eqn:Hr; [|discriminate].
    intros [= <- _ <-]. by eapply IH.
Qed.

Lemma run_terminate wbs p pre post p1 a :
  programEventTerminate ∉ pre →
  run wbs p pre = Some (p1, a, []) →
  run wbs p (pre ++ programEventTerminate :: post)
  = Some (p1, a ++ shutdown p1, mjoin (drain <$> post)).
Proof.
  revert p a. induction pre as [|e rest IH]; intros p a Hno.
  - simpl. by intros [= <- <-].
  - apply not_elem_of_cons_inv in Hno as [Hne Hrest].
    rewrite <- app_comm_cons, !run_cons by done.
    destruct (handle wbs p e) as [[p0 a0]|]; [|discriminate].
    destruct (run wbs p0 rest) as [[[p2 b] d0]|] eqn:Hr; [|discriminate].
    intros [= -> <- ->].
    rewrite (IH p0 b Hrest Hr). by rewrite app_assoc.
Qed.

(** C9, as the code has it: once Terminate has been handled, the coordinator
    state no longer changes and every event received afterwards gets exactly
    one answer from the draining goroutine: the empty answer for a Describe,
    the error terminated for an Announce, SetupPlay, SetupRecord or Play1,
    and the close of its signal for a ClientClose, Play2, PlayStop, Record or
    RecordStop; the events without a channel get nothing. *)
Theorem drain_after_terminate (wbs : nat) (p p1 : program)
    (pre post : list programEvent) (a d : list action) :
  programEventTerminate ∉ pre →
  run wbs p pre = Some (p1, a, d) →
  run wbs p (pre ++ programEventTerminate :: post)
    = Some (p1, a ++ shutdown p1, mjoin (drain <$> post))
  ∧ (∀ e, awaitsReply e = true → ∃ r, drain e = [r] ∧ drainReply e r)
  ∧ (∀ e, awaitsReply e = false → drain e = [])
  ∧ (∀ e, e ∈ post → awaitsReply e = true →
       ∃ r, drainReply e r ∧ r ∈ mjoin (drain <$> post)).
Proof.
  intros Hno Hrun.
  assert (∀ e, awaitsReply e = true → ∃ r, drain e = [r] ∧ drainReply e r) as Hone.
  { intros e He. destruct e; try discriminate He; simpl;
      eexists; (split; [reflexivity|]); constructor. }
  split.
  - pose proof (run_no_terminate _ _ _ _ _ _ Hno Hrun) as ->.
    by apply run_terminate.
  - split; [exact Hone|]. split.
    + intros e He. by destruct e.
    + intros e Hin He. destruct (Hone e He) as (r & Hdrain & Hreply).
      exists r. split; [done|].
      apply list_elem_of_join. exists (drain e). split.
      * rewrite Hdrain. apply elem_of_cons. by left.
      * by apply list_elem_of_fmap_2.
Qed.

Lemma drain_after_terminate_witness :
  (programEventTerminate ∉ Fixture.playTrace)
  ∧ (∃ p1 a,
       run Fixture.bufSize Fixture.started Fixture.playTrace = Some (p1, a, [])
       ∧ run Fixture.bufSize Fixture.started
           (Fixture.playTrace
            ++ (programEventTerminate
                :: [programEventClientPlayStop 7%nat 0%nat;
                    programEventClientDescribe "cam" 8%nat]))
         = Some (p1, a ++ shutdown p1,
                 mjoin (drain <$> [programEventClientPlayStop 7%nat 0%nat;
                                   programEventClientDescribe "cam" 8%nat]))).
Proof.
  assert (programEventTerminate ∉ Fixture.playTrace) as Hno.
  { unfold Fixture.playTrace. intros Hin.
    repeat (apply elem_of_cons in Hin as [Hin|Hin]; [discriminate Hin|]).
    by apply elem_of_nil in Hin. }
  split; [exact Hno|].
  eexists _, _.
  assert (run Fixture.bufSize Fixture.started Fixture.playTrace
          = Some (Fixture.playing,
                  match run Fixture.bufSize Fixture.started Fixture.playTrace with
                  | Some (_, a, _) => a
                  | None => []
                  end, [])) as Hrun
    by (vm_compute; reflexivity).
  split; [exact Hrun|].
  exact (proj1 (drain_after_terminate Fixture.bufSize Fixture.started _
                  Fixture.playTrace _ _ _ Hno Hrun)).
Defined.

(** C9, as it is stated, fails for Describe: its channel carries bytes, and
    the draining goroutine answers it with nil, not with an error. *)
Lemma describe_after_terminate_gets_no_error :
  ∃ p a,
    run Fixture.bufSize Fixture.started
      [programEventTerminate; programEventClientDescribe "cam" 9%nat]
    = Some (p, a, [ActSendBytes 9%nat []])
    ∧ ¬ ∃ msg, ActSendErr 9%nat (Some msg) ∈ [ActSendBytes 9%nat []].
Proof.
  eexists _, _. split; [reflexivity|].
  intros [msg Hin]. apply elem_of_cons in Hin as [Hin|Hin]; [discriminate|].
  by apply elem_of_nil in Hin.
Qed.

(** ** The two counters *)


(** ** The theorems at concrete inputs *)

Lemma announce_spec_witness :
  ∃ p' err,
    handle Fixture.bufSize Fixture.lobby
      (programEventClientAnnounce 1%nat 0%nat "x") = Some (p', [ActSendErr 1%nat err])
    ∧ err = None
    ∧ c_path (clientMem p' 0%nat) = "x"%string
    ∧ c_state (clientMem p' 0%nat) = clientStateAnnounce
    ∧ publishers p' = <["x"%string := pubClient 0%nat]> (publishers Fixture.lobby).
Proof.
  destruct (announce_spec Fixture.bufSize Fixture.lobby 1%nat 0%nat "x")
    as (p' & err & Hrun & Hiff & _ & Hok).
  exists p', err. split; [exact Hrun|].
  assert (err = None) as Hnone.
  { destruct err as [msg|]; [|reflexivity].
    destruct (proj1 Hiff (ex_intro _ msg eq_refl)) as [pub Hpub].
    vm_compute in Hpub. discriminate Hpub. }
  split; [exact Hnone|].
  destruct (Hok Hnone) as (H1 & H2 & H3 & _). auto.
Defined.

Lemma setupRecord_spec_witness :
  ∃ p',
    handle Fixture.bufSize Fixture.lobby
      (programEventClientSetupRecord 2%nat 0%nat streamProtocolTcp 0 1)
      = Some (p', [ActSendErr 2%nat None])
    ∧ c_streamTracks (clientMem p' 0%nat) = [{| rtpPort := 0; rtcpPort := 1 |}]
    ∧ c_state (clientMem p' 0%nat) = clientStatePreRecord.
Proof.
  destruct (setupRecord_spec Fixture.bufSize Fixture.lobby 2%nat 0%nat
              streamProtocolTcp 0 1) as (p' & Hrun & Htracks & _ & Hstate & _).
  exists p'. split; [exact Hrun|]. split; [exact Htracks|exact Hstate].
Defined.

Lemma describe_spec_witness :
  ∃ reply,
    handle Fixture.bufSize Fixture.playing
      (programEventClientDescribe "cam" 5%nat)
      = Some (Fixture.playing, [ActSendBytes 5%nat reply])
    ∧ reply = Fixture.sdpBytes.
Proof.
  destruct (describe_spec Fixture.bufSize Fixture.playing "cam" 5%nat)
    as (reply & Hrun & Hready & _).
  exists reply. split; [exact Hrun|].
  apply (Hready (pubSource 0%nat)); vm_compute; reflexivity.
Defined.

Lemma setupPlay_spec_witness :
  ∃ p' err,
    handle Fixture.bufSize Fixture.playing
      (programEventClientSetupPlay 6%nat 0%nat "cam" streamProtocolTcp 2 3)
      = Some (p', [ActSendErr 6%nat err])
    ∧ err = Some "all the tracks have already been setup"%string
    ∧ p' = Fixture.playing.
Proof.
  destruct (setupPlay_spec Fixture.bufSize Fixture.playing 6%nat 0%nat "cam"
              streamProtocolTcp 2 3) as (p' & err & Hrun & _ & Hready & _).
  exists p', err. split; [exact Hrun|].
  assert (publishers Fixture.playing !! "cam"%string = Some (pubSource 0%nat)) as Hpub
    by (vm_compute; reflexivity).
  assert (pubIsReady Fixture.playing (pubSource 0%nat) = true) as Hrdy
    by (vm_compute; reflexivity).
  apply (proj1 (Hready _ Hpub Hrdy)). vm_compute. lia.
Defined.

Lemma recordStop_spec_witness :
  ∃ p' closes,
    handle Fixture.bufSize Fixture.recording
      (programEventClientRecordStop 4%nat 0%nat)
      = Some (p', closes ++ [ActCloseDone 4%nat])
    ∧ publisherCount p' = 0
    ∧ c_state (clientMem p' 0%nat) = clientStatePreRecord
    ∧ publishers p' = publishers Fixture.recording.
Proof.
  destruct (recordStop_spec Fixture.bufSize Fixture.recording 4%nat 0%nat)
    as (p' & closes & Hrun & _ & Hdec & Hstate & _ & Hpubs & _).
  exists p', closes. split; [exact Hrun|]. split.
  - rewrite Hdec; [vm_compute; reflexivity|].
    vm_compute. split; [reflexivity|discriminate].
  - split; [exact Hstate|exact Hpubs].
Defined.

(** * Further properties of the handlers *)

(** ** ClientClose *)

(** X1: closing a client that is in the set removes it from the set and nothing
    else from it; no client object and no counter is written; the handler
    never adds an entry to the publishers map and never removes the entry of
    another publisher or an entry at another path; when the client's path is
    not empty, the client is no longer the publisher of its path. *)
Theorem clientClose_spec (wbs : nat) (p : program) (done : chan) (client : clientPtr) :
  client ∈ clients p →
  ∃ p',
    handle wbs p (programEventClientClose done client)
      = Some (p', [ActLogClient client "disconnected"; ActCloseDone done])
    ∧ clients p' = clients p ∖ {[client]}
    ∧ clientMem p' = clientMem p
    ∧ sourceMem p' = sourceMem p
    ∧ publisherCount p' = publisherCount p
    ∧ receiverCount p' = receiverCount p
    ∧ (∀ k pub, publishers p' !! k = Some pub → publishers p !! k = Some pub)
    ∧ (∀ k pub, publishers p !! k = Some pub →
         pub ≠ pubClient client ∨ k ≠ c_path (clientMem p client) →
         publishers p' !! k = Some pub)
    ∧ (c_path (clientMem p client) ≠ EmptyString →
         publishers p' !! c_path (clientMem p client) ≠ Some (pubClient client)).
Proof.
  intros Hin. simpl. rewrite decide_True by done.
  set (cpath := c_path (clientMem p client)).
  destruct (decide (cpath ≠ EmptyString)) as [Hpath|Hpath].
  - destruct (publishers p !! cpath) as [pub|] eqn:Hpub.
    + destruct (decide (pub = pubClient client)) as [->|Hother].
      * eexists. split; [reflexivity|]. simpl.
        repeat split; try reflexivity.
        -- intros k pub Hk. apply lookup_delete_Some in Hk. tauto.
        -- intros k pub Hk [Hne|Hne].
           ++ apply lookup_delete_Some. split; [|done]. intros <-.
              rewrite Hpub in Hk. congruence.
           ++ apply lookup_delete_Some. split; [|done]. congruence.
        -- intros _. by rewrite lookup_delete_eq.
      * eexists. split; [reflexivity|]. simpl.
        repeat split; try reflexivity; try done.
        intros _. rewrite Hpub. congruence.
    + eexists. split; [reflexivity|]. simpl.
      repeat split; try reflexivity; try done.
      intros _. by rewrite Hpub.
  - eexists. split; [reflexivity|]. simpl.
    repeat split; try reflexivity; try done.
Qed.

Lemma clientClose_spec_witness :
  0%nat ∈ clients Fixture.recording
  ∧ ∃ p',
      handle Fixture.bufSize Fixture.recording (programEventClientClose 9%nat 0%nat)
        = Some (p', [ActLogClient 0%nat "disconnected"; ActCloseDone 9%nat])
      ∧ clients p' = clients Fixture.recording ∖ {[0%nat]}
      ∧ publishers p' !! "x"%string ≠ Some (pubClient 0%nat).
Proof.
  assert (0%nat ∈ clients Fixture.recording) as Hin by (vm_compute; reflexivity).
  split; [exact Hin|].
  destruct (clientClose_spec Fixture.bufSize Fixture.recording 9%nat 0%nat Hin)
    as (p' & Hrun & Hclients & _ & _ & _ & _ & _ & _ & Hgone).
  exists p'. split; [exact Hrun|]. split; [exact Hclients|].
  apply Hgone. vm_compute. discriminate.
Defined.

(** X2: ClientClose is idempotent: whatever the first close did, a second close
    of the same client finds it deleted, changes nothing and closes its
    signal. *)
Theorem clientClose_twice (wbs : nat) (p p1 : program) (done1 done2 : chan)
    (client : clientPtr) (acts : list action) :
  handle wbs p (programEventClientClose done1 client) = Some (p1, acts) →
  (client ∉ clients p1)
  ∧ handle wbs p1 (programEventClientClose done2 client)
    = Some (p1, [ActCloseDone done2]).
Proof.
  intros Hfirst.
  assert (client ∉ clients p1) as Hgone.
  { simpl in Hfirst. destruct (decide (client ∈ clients p)) as [Hin|Hout].
    - assert (clients p1 = clients p ∖ {[client]}) as Hcl.
      { repeat match type of Hfirst with
               | context [match ?x with _ => _ end] => destruct x; simpl in Hfirst
               end; by injection Hfirst as <- _. }
      rewrite Hcl. intros Hx. apply elem_of_difference in Hx as [_ Hx].
      apply Hx. by apply elem_of_singleton.
    - by injection Hfirst as <- _. }
  split; [done|]. simpl. by rewrite decide_False.
Qed.

Lemma clientClose_twice_witness :
  ∃ p1 acts,
    handle Fixture.bufSize Fixture.playing (programEventClientClose 4%nat 0%nat)
      = Some (p1, acts)
    ∧ (0%nat ∉ clients p1)
    ∧ handle Fixture.bufSize p1 (programEventClientClose 5%nat 0%nat)
      = Some (p1, [ActCloseDone 5%nat]).
Proof.
  destruct (handle Fixture.bufSize Fixture.playing
              (programEventClientClose 4%nat 0%nat)) as [[p1 acts]|] eqn:Hrun.
  - exists p1, acts. split; [reflexivity|].
    exact (clientClose_twice Fixture.bufSize Fixture.playing p1 4%nat 5%nat
             0%nat acts Hrun).
  - vm_compute in Hrun. discriminate Hrun.
Defined.

(** X3: the guard on the empty path: a client whose path is empty is removed
    from the set but the publishers map is left as it is, also when the
    client is registered in it at the empty path. *)
Theorem clientClose_empty_path (wbs : nat) (p p' : program) (done : chan)
    (client : clientPtr) (acts : list action) :
  c_path (clientMem p client) = EmptyString →
  handle wbs p (programEventClientClose done client) = Some (p', acts) →
  publishers p' = publishers p.
Proof.
  intros Hempty. simpl. rewrite Hempty.
  destruct (decide (client ∈ clients p)); [|by intros [= <- _]].
  rewrite decide_False by (intros Hne; by apply Hne).
  by intros [= <- _].
Qed.

Lemma clientClose_empty_path_witness :
  c_path (clientMem Fixture.lobby 1%nat) = EmptyString
  ∧ ∃ p' acts,
      handle Fixture.bufSize Fixture.lobby (programEventClientClose 4%nat 1%nat)
        = Some (p', acts)
      ∧ publishers p' = publishers Fixture.lobby.
Proof.
  split; [reflexivity|].
  destruct (handle Fixture.bufSize Fixture.lobby
              (programEventClientClose 4%nat 1%nat)) as [[p' acts]|] eqn:Hrun.
  - exists p', acts. split; [reflexivity|].
    exact (clientClose_empty_path Fixture.bufSize Fixture.lobby p' 4%nat 1%nat
             acts eq_refl Hrun).
  - vm_compute in Hrun. discriminate Hrun.
Defined.

(** ** Announce *)

(** X4: an Announce never removes or replaces an entry of the publishers map:
    the first publisher of a path keeps it. *)
Theorem announce_keeps_entries (wbs : nat) (p p' : program) (res : chan)
    (client : clientPtr) (path : string) (acts : list action) :
  handle wbs p (programEventClientAnnounce res client path) = Some (p', acts) →
  ∀ k pub, publishers p !! k = Some pub → publishers p' !! k = Some pub.
Proof.
  simpl. destruct (publishers p !! path) as [pub0|] eqn:Hpath.
  - by intros [= <- _].
  - intros [= <- _] k pub Hk. simpl.
    rewrite lookup_insert_ne; [done|]. intros <-. congruence.
Qed.

Lemma announce_keeps_entries_witness :
  ∃ p' acts,
    handle Fixture.bufSize Fixture.recording
      (programEventClientAnnounce 5%nat 2%nat "y") = Some (p', acts)
    ∧ publishers p' !! "x"%string = Some (pubClient 0%nat).
Proof.
  destruct (handle Fixture.bufSize Fixture.recording
              (programEventClientAnnounce 5%nat 2%nat "y")) as [[p' acts]|] eqn:Hrun.
  - exists p', acts. split; [reflexivity|].
    apply (announce_keeps_entries Fixture.bufSize Fixture.recording p' 5%nat
             2%nat "y" acts Hrun).
    vm_compute. reflexivity.
  - vm_compute in Hrun. discriminate Hrun.
Defined.



(** X6: Announce and ClientClose undo each other on the publishers map: when a
    connected client announces on a free, non-empty path and then
    disconnects, the map is what it was before the Announce. *)
Theorem announce_close_roundtrip (wbs : nat) (p : program) (res done : chan)
    (client : clientPtr) (path : string) :
  client ∈ clients p →
  path ≠ EmptyString →
  publishers p !! path = None →
  ∃ p1 p2 acts,
    handle wbs p (programEventClientAnnounce res client path)
      = Some (p1, [ActSendErr res None])
    ∧ handle wbs p1 (programEventClientClose done client) = Some (p2, acts)
    ∧ publishers p2 = publishers p
    ∧ clients p2 = clients p ∖ {[client]}.
Proof.
  intros Hin Hpath Hfree.
  set (p1 := set_publishers (<[path := pubClient client]> (publishers p))
               (updClient client (with_state clientStateAnnounce)
                  (updClient client (with_path path) p))).
  assert (handle wbs p (programEventClientAnnounce res client path)
          = Some (p1, [ActSendErr res None])) as Hrun.
  { simpl. by rewrite Hfree. }
  assert (c_path (clientMem p1 client) = path) as Hp.
  { subst p1. store_simpl. reflexivity. }
  assert (handle wbs p1 (programEventClientClose done client)
          = Some (set_publishers (delete path (publishers p1))
                    (set_clients (clients p1 ∖ {[client]}) p1),
                  [ActLogClient client "disconnected"; ActCloseDone done]))
    as Hclose.
  { unfold handle. rewrite decide_True by done. cbv zeta.
    change (clientMem (set_clients (clients p1 ∖ {[client]}) p1))
      with (clientMem p1).
    rewrite Hp, decide_True by done.
    change (publishers (set_clients (clients p1 ∖ {[client]}) p1))
      with (<[path := pubClient client]> (publishers p)).
    rewrite lookup_insert_eq, decide_True by done. reflexivity. }
  eexists p1, _, _. split; [exact Hrun|]. split; [exact Hclose|].
  split; [|reflexivity]. simpl.
  rewrite delete_insert_eq. by apply delete_id.
Qed.

Lemma announce_close_roundtrip_witness :
  0%nat ∈ clients Fixture.lobby
  ∧ "x"%string ≠ EmptyString
  ∧ publishers Fixture.lobby !! "x"%string = None
  ∧ ∃ p1 p2 acts,
      handle Fixture.bufSize Fixture.lobby
        (programEventClientAnnounce 1%nat 0%nat "x") = Some (p1, [ActSendErr 1%nat None])
      ∧ handle Fixture.bufSize p1 (programEventClientClose 2%nat 0%nat)
        = Some (p2, acts)
      ∧ publishers p2 = publishers Fixture.lobby
      ∧ clients p2 = clients Fixture.lobby ∖ {[0%nat]}.
Proof.
  assert (0%nat ∈ clients Fixture.lobby) as H1 by (vm_compute; reflexivity).
  assert ("x"%string ≠ EmptyString) as H2 by discriminate.
  assert (publishers Fixture.lobby !! "x"%string = None) as H3
    by (vm_compute; reflexivity).
  split; [exact H1|]. split; [exact H2|]. split; [exact H3|].
  exact (announce_close_roundtrip Fixture.bufSize Fixture.lobby 1%nat 2%nat
           0%nat "x" H1 H2 H3).
Defined.

(** ** Start and stop *)

Lemma intSub_intAdd_1 x : inInt x → intSub (intAdd x 1) 1 = x.
Proof.
  unfold intSub, intAdd, wrapInt, inInt, minInt, maxInt. intros Hx.
  replace ((x + 1 + 2 ^ 63) mod 2 ^ 64 - 2 ^ 63 - 1 + 2 ^ 63)
    with ((x + 1 + 2 ^ 63) mod 2 ^ 64 - 1) by lia.
  rewrite Zminus_mod_idemp_l.
  replace (x + 1 + 2 ^ 63 - 1) with (x + 2 ^ 63) by lia.
  rewrite Z.mod_small by lia. lia.
Qed.

(** X8: Play2 followed by PlayStop for the same client brings receiverCount
    back to its value, also when the increment wrapped around, and leaves the
    client in state PRE_PLAY with its path and tracks; nothing else of the
    state is written. *)
Theorem play2_playStop_roundtrip (wbs : nat) (p : program) (done1 done2 : chan)
    (client : clientPtr) :
  inInt (receiverCount p) →
  ∃ p1 p2,
    handle wbs p (programEventClientPlay2 done1 client)
      = Some (p1, [ActCloseDone done1])
    ∧ c_state (clientMem p1 client) = clientStatePlay
    ∧ handle wbs p1 (programEventClientPlayStop done2 client)
      = Some (p2, [ActCloseDone done2])
    ∧ c_state (clientMem p2 client) = clientStatePrePlay
    ∧ receiverCount p2 = receiverCount p
    ∧ publisherCount p2 = publisherCount p
    ∧ publishers p2 = publishers p
    ∧ c_path (clientMem p2 client) = c_path (clientMem p client)
    ∧ c_streamTracks (clientMem p2 client) = c_streamTracks (clientMem p client)
    ∧ sameButClient client p p2.
Proof.
  intros Hint. eexists _, _. split; [reflexivity|].
  split; [by store_simpl|]. split; [reflexivity|].
  split; [by store_simpl|]. split; [by apply intSub_intAdd_1|].
  split; [reflexivity|]. split; [reflexivity|].
  split; [by store_simpl|]. split; [by store_simpl|].
  repeat split; try reflexivity. intros c Hc. by store_simpl.
Qed.

Lemma play2_playStop_roundtrip_witness :
  inInt (receiverCount Fixture.playingUdp)
  ∧ ∃ p1 p2,
      handle Fixture.bufSize Fixture.playingUdp (programEventClientPlay2 7%nat 0%nat)
        = Some (p1, [ActCloseDone 7%nat])
      ∧ handle Fixture.bufSize p1 (programEventClientPlayStop 8%nat 0%nat)
        = Some (p2, [ActCloseDone 8%nat])
      ∧ receiverCount p2 = receiverCount Fixture.playingUdp.
Proof.
  assert (inInt (receiverCount Fixture.playingUdp)) as Hint
    by (vm_compute; split; discriminate).
  split; [exact Hint|].
  destruct (play2_playStop_roundtrip Fixture.bufSize Fixture.playingUdp 7%nat 8%nat
              0%nat Hint) as (p1 & p2 & H1 & _ & H2 & _ & H3 & _).
  exists p1, p2. split; [exact H1|]. split; [exact H2|exact H3].
Defined.

(** X9: StreamerReady followed by StreamerNotReady for the same source brings
    publisherCount back to its value and leaves the source not ready, with
    its path and SDP; no client object, and neither the clients set nor the
    publishers map, is written. *)
Theorem streamerReady_notReady_roundtrip (wbs : nat) (p : program) (src : sourcePtr) :
  inInt (publisherCount p) →
  ∃ p1 p2 closes,
    handle wbs p (programEventStreamerReady src) = Some (p1, [ActLogSource src "ready"])
    ∧ s_ready (sourceMem p1 src) = true
    ∧ handle wbs p1 (programEventStreamerNotReady src)
      = Some (p2, ActLogSource src "not ready" :: closes)
    ∧ s_ready (sourceMem p2 src) = false
    ∧ publisherCount p2 = publisherCount p
    ∧ receiverCount p2 = receiverCount p
    ∧ s_path (sourceMem p2 src) = s_path (sourceMem p src)
    ∧ s_sdpText (sourceMem p2 src) = s_sdpText (sourceMem p src)
    ∧ s_sdpParsed (sourceMem p2 src) = s_sdpParsed (sourceMem p src)
    ∧ (∀ s, s ≠ src → sourceMem p2 s = sourceMem p s)
    ∧ clientMem p2 = clientMem p
    ∧ clients p2 = clients p
    ∧ publishers p2 = publishers p.
Proof.
  intros Hint. eexists _, _, _. split; [reflexivity|].
  split; [by store_simpl|]. split; [reflexivity|].
  split; [by store_simpl|]. split; [by apply intSub_intAdd_1|].
  split; [reflexivity|].
  split; [by store_simpl|]. split; [by store_simpl|]. split; [by store_simpl|].
  split; [intros s Hs; by store_simpl|].
  repeat split; reflexivity.
Qed.

Lemma streamerReady_notReady_roundtrip_witness :
  inInt (publisherCount Fixture.started)
  ∧ ∃ p1 p2 closes,
      handle Fixture.bufSize Fixture.started (programEventStreamerReady 0%nat)
        = Some (p1, [ActLogSource 0%nat "ready"])
      ∧ handle Fixture.bufSize p1 (programEventStreamerNotReady 0%nat)
        = Some (p2, ActLogSource 0%nat "not ready" :: closes)
      ∧ publisherCount p2 = publisherCount Fixture.started
      ∧ s_ready (sourceMem p2 0%nat) = false.
Proof.
  assert (inInt (publisherCount Fixture.started)) as Hint
    by (vm_compute; split; discriminate).
  split; [exact Hint|].
  destruct (streamerReady_notReady_roundtrip Fixture.bufSize Fixture.started 0%nat Hint)
    as (p1 & p2 & closes & H1 & _ & H2 & H3 & H4 & _).
  exists p1, p2, closes. split; [exact H1|]. split; [exact H2|].
  split; [exact H4|exact H3].
Defined.

(** ** The receivers count *)

Lemma playingClients_same (p q : program) :
  (∀ c, c ∈ clients q ∧ c_state (clientMem q c) = clientStatePlay
        ↔ c ∈ clients p ∧ c_state (clientMem p c) = clientStatePlay) →
  playingClients q = playingClients p.
Proof.
  intros Hsame. unfold playingClients. apply set_size_proper.
  intros c. rewrite !elem_of_filter. specialize (Hsame c). tauto.
Qed.

Lemma playingClients_assign (p q : program) (client : clientPtr) :
  clients q = clients p →
  (∀ c, c ≠ client → c_state (clientMem q c) = c_state (clientMem p c)) →
  notPlaying p client →
  c_state (clientMem q client) ≠ clientStatePlay →
  playingClients q = playingClients p.
Proof.
  intros Hcl Hother Hbefore Hafter. apply playingClients_same. intros c.
  rewrite Hcl. destruct (decide (c = client)) as [->|Hne].
  - split; intros [Hin Hst]; [done|]. by destruct (Hbefore Hin).
  - by rewrite Hother.
Qed.

Lemma playingClients_start (p q : program) (client : clientPtr) :
  clients q = clients p →
  (∀ c, c ≠ client → c_state (clientMem q c) = c_state (clientMem p c)) →
  client ∈ clients p →
  c_state (clientMem p client) ≠ clientStatePlay →
  c_state (clientMem q client) = clientStatePlay →
  playingClients q = S (playingClients p).
Proof.
  intros Hcl Hother Hin Hbefore Hafter. unfold playingClients.
  assert (filter (λ c, c_state (clientMem q c) = clientStatePlay) (clients q)
          ≡ {[client]}
            ∪ filter (λ c, c_state (clientMem p c) = clientStatePlay) (clients p))
    as Heq.
  { intros c. rewrite elem_of_union, !elem_of_filter, elem_of_singleton, Hcl.
    destruct (decide (c = client)) as [->|Hne].
    - tauto.
    - rewrite Hother by done. tauto. }
  rewrite Heq, size_union, size_singleton; [done|].
  intros c Hc1 Hc2. apply elem_of_singleton in Hc1 as ->.
  apply elem_of_filter in Hc2 as [Hst _]. done.
Qed.

(** X10: every handler keeps receiverCount equal to the number of clients of the
    set in state PLAY, as long as the events follow the order of a session:
    Play2 for a connected client that is not playing, PlayStop for one that
    is, and no ClientClose, Announce, SetupPlay, SetupRecord, Record or
    RecordStop for a client that is playing; a new session starts in state
    INITIAL. *)
Theorem receivers_count_kept (wbs : nat) (p p' : program) (e : programEvent)
    (acts : list action) :
  inInt (receiverCount p) →
  receiversAgree p →
  playDiscipline p e →
  handle wbs p e = Some (p', acts) →
  receiversAgree p'.
Proof.
  unfold receiversAgree. intros Hint Hagree Hord Hh.
  destruct e; simpl in Hord, Hh;
    repeat match type of Hh with
           | context [match ?x with _ => _ end] => destruct x eqn:?; simpl in Hh
           end;
    try discriminate; injection Hh as <- <-; try exact Hagree.
  - (* ClientNew *)
    simpl receiverCount. rewrite Hagree. f_equal. symmetry. apply playingClients_same.
    intros c. simpl. rewrite elem_of_union, elem_of_singleton.
    destruct (decide (c = nextClient p)) as [->|Hne].
    + rewrite fn_lookup_insert. simpl. split; [intros [_ ?]; done|].
      intros [Hin _]. done.
    + rewrite fn_lookup_insert_ne by congruence. tauto.
  - (* ClientClose, of a client of the set that published at its path *)
    simpl receiverCount. rewrite Hagree. f_equal. symmetry. apply playingClients_same.
    intros c. simpl. rewrite elem_of_difference, elem_of_singleton.
    split; [tauto|]. intros [Hin Hst]. repeat split; [done| |done].
    intros ->. by destruct (Hord Hin).
  - simpl receiverCount. rewrite Hagree. f_equal. symmetry. apply playingClients_same.
    intros c. simpl. rewrite elem_of_difference, elem_of_singleton.
    split; [tauto|]. intros [Hin Hst]. repeat split; [done| |done].
    intros ->. by destruct (Hord Hin).
  - simpl receiverCount. rewrite Hagree. f_equal. symmetry. apply playingClients_same.
    intros c. simpl. rewrite elem_of_difference, elem_of_singleton.
    split; [tauto|]. intros [Hin Hst]. repeat split; [done| |done].
    intros ->. by destruct (Hord Hin).
  - simpl receiverCount. rewrite Hagree. f_equal. symmetry. apply playingClients_same.
    intros c. simpl. rewrite elem_of_difference, elem_of_singleton.
    split; [tauto|]. intros [Hin Hst]. repeat split; [done| |done].
    intros ->. by destruct (Hord Hin).
  - (* Announce *)
    simpl receiverCount. rewrite Hagree. f_equal. symmetry.
    apply (playingClients_assign p _ client); [done| |done|by store_simpl].
    intros c Hc. by store_simpl.
  - (* SetupPlay *)
    simpl receiverCount. rewrite Hagree. f_equal. symmetry.
    apply (playingClients_assign p _ client); [done| |done|by store_simpl].
    intros c Hc. by store_simpl.
  - (* SetupRecord *)
    simpl receiverCount. rewrite Hagree. f_equal. symmetry.
    apply (playingClients_assign p _ client); [done| |done|by store_simpl].
    intros c Hc. by store_simpl.
  - (* Play2 *)
    destruct Hord as (Hin & Hst & Hmax).
    simpl receiverCount. unfold intAdd. rewrite wrapInt_id
      by (unfold inInt, minInt, maxInt in *; lia).
    rewrite (playingClients_start p _ client); [lia|done| |done|done|by store_simpl].
    intros c Hc. by store_simpl.
  - (* PlayStop *)
    destruct Hord as (Hin & Hst).
    assert (∀ v, playingClients p
                 = S (playingClients
                        (updClient client (with_state clientStatePrePlay)
                           (set_receiverCount v p)))) as Hone.
    { intros v. apply (playingClients_start _ p client);
        [done| |done|by store_simpl|done].
      intros c Hc. by store_simpl. }
    simpl receiverCount. unfold intSub. rewrite wrapInt_id
      by (unfold inInt, minInt, maxInt in *; lia).
    pose proof (Hone (receiverCount p - 1)). lia.
  - (* Record *)
    simpl receiverCount. rewrite Hagree. f_equal. symmetry.
    apply (playingClients_assign p _ client); [done| |done|by store_simpl].
    intros c Hc. by store_simpl.
  - (* RecordStop *)
    simpl receiverCount. rewrite Hagree. f_equal. symmetry.
    apply (playingClients_assign p _ client); [done| |done|by store_simpl].
    intros c Hc. by store_simpl.
Qed.

Lemma receivers_count_kept_witness :
  ∃ p',
    handle Fixture.bufSize Fixture.playingUdp (programEventClientPlayStop 7%nat 0%nat)
      = Some (p', [ActCloseDone 7%nat])
    ∧ receiversAgree p'.
Proof.
  eexists. split; [reflexivity|].
  apply (receivers_count_kept Fixture.bufSize Fixture.playingUdp _
           (programEventClientPlayStop 7%nat 0%nat) [ActCloseDone 7%nat]).
  - vm_compute. split; discriminate.
  - vm_compute. reflexivity.
  - split; vm_compute; reflexivity.
  - reflexivity.
Defined.

(** ** The sources *)

(** X11: a StreamerNotReady clears the ready flag of the source, decrements
    publisherCount by one in the arithmetic of int, and starts a close, once,
    for each client of the set whose path is the path of the source, whatever
    its state, and for no other client; the source stays registered: the
    publishers map, the clients set, the client objects and receiverCount are
    as before. *)
Theorem streamerNotReady_spec (wbs : nat) (p : program) (src : sourcePtr) :
  ∃ p' closes,
    handle wbs p (programEventStreamerNotReady src)
      = Some (p', ActLogSource src "not ready" :: closes)
    ∧ s_ready (sourceMem p' src) = false
    ∧ s_path (sourceMem p' src) = s_path (sourceMem p src)
    ∧ publisherCount p' = intSub (publisherCount p) 1
    ∧ (minInt < publisherCount p ≤ maxInt → publisherCount p' = publisherCount p - 1)
    ∧ publishers p' = publishers p
    ∧ clients p' = clients p
    ∧ clientMem p' = clientMem p
    ∧ receiverCount p' = receiverCount p
    ∧ (∀ s, s ≠ src → sourceMem p' s = sourceMem p s)
    ∧ NoDup closes
    ∧ ∀ a, a ∈ closes ↔
           ∃ oc, a = ActGoClose oc
                 ∧ oc ∈ clients p
                 ∧ c_path (clientMem p oc) = s_path (sourceMem p src).
Proof.
  eexists _, _. split; [reflexivity|].
  split; [by store_simpl|]. split; [by store_simpl|].
  split; [reflexivity|]. split.
  { intros Hrange. simpl. unfold intSub. apply wrapInt_id.
    unfold inInt, minInt, maxInt in *. lia. }
  split; [reflexivity|]. split; [reflexivity|]. split; [reflexivity|].
  split; [reflexivity|].
  split; [intros s Hs; by store_simpl|].
  split; [apply NoDup_closeAll, NoDup_elements|].
  intros a. rewrite elem_of_closeAll. split.
  - intros (oc & -> & Hin & Hcond). exists oc. split; [done|].
    apply elem_of_elements in Hin. apply bool_decide_eq_true in Hcond.
    revert Hcond. store_simpl. done.
  - intros (oc & -> & Hin & Hpath). exists oc. split; [done|].
    split; [by apply elem_of_elements|].
    apply bool_decide_eq_true. store_simpl. done.
Qed.

(** X12: once a source registered at a path has reported ready, a Describe of
    the path is answered with the SDP text the source holds, and a SetupPlay
    on the path by a client without tracks is accepted when that SDP
    describes a media. *)
Theorem streamerReady_then_served (wbs : nat) (p : program) (src : sourcePtr)
    (path : string) (res1 res2 : chan) (client : clientPtr)
    (protocol : streamProtocol) (rtp rtcp : Z) :
  publishers p !! path = Some (pubSource src) →
  c_streamTracks (clientMem p client) = [] →
  MediaDescriptions (s_sdpParsed (sourceMem p src)) ≠ [] →
  ∃ p1 p2,
    handle wbs p (programEventStreamerReady src) = Some (p1, [ActLogSource src "ready"])
    ∧ handle wbs p1 (programEventClientDescribe path res1)
      = Some (p1, [ActSendBytes res1 (s_sdpText (sourceMem p src))])
    ∧ handle wbs p1 (programEventClientSetupPlay res2 client path protocol rtp rtcp)
      = Some (p2, [ActSendErr res2 None])
    ∧ c_state (clientMem p2 client) = clientStatePrePlay
    ∧ c_path (clientMem p2 client) = path.
Proof.
  intros Hpub Htracks Hmedia.
  set (p1 := set_publisherCount (intAdd (publisherCount p) 1)
               (updSource src (with_ready true) p)).
  assert (handle wbs p (programEventStreamerReady src)
          = Some (p1, [ActLogSource src "ready"])) as Hready by reflexivity.
  assert (publishers p1 !! path = Some (pubSource src)) as Hpub1 by done.
  assert (sourceMem p1 src = with_ready true (sourceMem p src)) as Hsrc
    by (subst p1; by store_simpl).
  assert (clientMem p1 client = clientMem p client) as Hcl by done.
  clearbody p1. exists p1.
  assert (handle wbs p1 (programEventClientDescribe path res1)
          = Some (p1, [ActSendBytes res1 (s_sdpText (sourceMem p src))])) as Hdesc.
  { simpl. rewrite Hpub1. simpl. by rewrite Hsrc. }
  destruct (MediaDescriptions (s_sdpParsed (sourceMem p src))) as [|m ms] eqn:Hm;
    [done|].
  assert (handle wbs p1 (programEventClientSetupPlay res2 client path protocol rtp rtcp)
          = Some (updClient client (with_state clientStatePrePlay)
                    (updClient client (appendTrack rtp rtcp)
                       (updClient client (with_streamProtocol protocol)
                          (updClient client (with_path path) p1))),
                  [ActSendErr res2 None])) as Hsetup.
  { simpl. rewrite Hpub1. simpl. rewrite Hsrc. simpl. rewrite Hcl, Htracks, Hm.
    simpl. try rewrite decide_False by (simpl; lia). reflexivity. }
  eexists. split; [exact Hready|]. split; [exact Hdesc|]. split; [exact Hsetup|].
  split; by store_simpl.
Qed.

Lemma streamerReady_then_served_witness :
  publishers Fixture.started !! "cam"%string = Some (pubSource 0%nat)
  ∧ ∃ p1 p2,
      handle Fixture.bufSize Fixture.started (programEventStreamerReady 0%nat)
        = Some (p1, [ActLogSource 0%nat "ready"])
      ∧ handle Fixture.bufSize p1 (programEventClientDescribe "cam" 1%nat)
        = Some (p1, [ActSendBytes 1%nat Fixture.sdpBytes])
      ∧ handle Fixture.bufSize p1
          (programEventClientSetupPlay 2%nat 0%nat "cam" streamProtocolTcp 0 1)
        = Some (p2, [ActSendErr 2%nat None]).
Proof.
  assert (publishers Fixture.started !! "cam"%string = Some (pubSource 0%nat)) as Hpub
    by (vm_compute; reflexivity).
  split; [exact Hpub|].
  destruct (streamerReady_then_served Fixture.bufSize Fixture.started 0%nat "cam"
              1%nat 2%nat 0%nat streamProtocolTcp 0 1 Hpub eq_refl)
    as (p1 & p2 & H1 & H2 & H3 & _).
  { vm_compute. discriminate. }
  exists p1, p2. split; [exact H1|]. split; [exact H2|exact H3].
Defined.

(** X13: once a source registered at a path has reported not ready, the path
    is served to no one: a Describe of the path gets the empty answer, and a
    SetupPlay on the path, and a Play1 of a client whose path it is, are
    refused, each without a change of the state. *)
Theorem streamerNotReady_then_refused (wbs : nat) (p : program) (src : sourcePtr)
    (path : string) (res : chan) (client : clientPtr)
    (protocol : streamProtocol) (rtp rtcp : Z) :
  publishers p !! path = Some (pubSource src) →
  ∃ p1 acts,
    handle wbs p (programEventStreamerNotReady src) = Some (p1, acts)
    ∧ handle wbs p1 (programEventClientDescribe path res)
      = Some (p1, [ActSendBytes res []])
    ∧ (∃ msg, handle wbs p1
                (programEventClientSetupPlay res client path protocol rtp rtcp)
              = Some (p1, [ActSendErr res (Some msg)]))
    ∧ (c_path (clientMem p client) = path →
       ∃ msg, handle wbs p1 (programEventClientPlay1 res client)
              = Some (p1, [ActSendErr res (Some msg)])).
Proof.
  intros Hpub. eexists _, _. split; [reflexivity|].
  assert (∀ v, sourceMem (set_publisherCount v (updSource src (with_ready false) p)) src
               = with_ready false (sourceMem p src)) as Hsrc.
  { intros v. by store_simpl. }
  split; [|split].
  - unfold handle. simpl publishers. rewrite Hpub. unfold pubIsReady.
    rewrite Hsrc. reflexivity.
  - unfold handle. simpl publishers. rewrite Hpub. unfold pubIsReady.
    rewrite Hsrc. simpl. eauto.
  - intros Hpath. unfold handle. simpl clientMem. rewrite Hpath.
    simpl publishers. rewrite Hpub. unfold pubIsReady.
    rewrite Hsrc. simpl. eauto.
Qed.

Lemma streamerNotReady_then_refused_witness :
  publishers Fixture.playing !! "cam"%string = Some (pubSource 0%nat)
  ∧ ∃ p1 acts,
      handle Fixture.bufSize Fixture.playing (programEventStreamerNotReady 0%nat)
        = Some (p1, acts)
      ∧ handle Fixture.bufSize p1 (programEventClientDescribe "cam" 9%nat)
        = Some (p1, [ActSendBytes 9%nat []]).
Proof.
  assert (publishers Fixture.playing !! "cam"%string = Some (pubSource 0%nat)) as Hpub
    by (vm_compute; reflexivity).
  split; [exact Hpub|].
  destruct (streamerNotReady_then_refused Fixture.bufSize Fixture.playing 0%nat "cam"
              9%nat 0%nat streamProtocolTcp 0 1 Hpub)
    as (p1 & acts & H1 & H2 & _).
  exists p1, acts. split; [exact H1|exact H2].
Defined.

(** ** More on the lookup of a publisher *)


Lemma findPublisherIn_track p order addr streamType c i :
  findPublisherIn p order addr streamType = Some (c, i) →
  findTrack streamType (addrPort addr) (c_streamTracks (clientMem p c)) 0 = Some i.
Proof.
  induction order as [|[path pub] rest IH]; simpl; [discriminate|].
  destruct pub as [c0|s0]; [|done].
  destruct (skipsClient (clientMem p c0) addr); [done|].
  destruct (findTrack streamType (addrPort addr) (c_streamTracks (clientMem p c0)) 0)
    as [i0|] eqn:Hfind; [|done].
  by intros [= <- <-].
Qed.



(** X15: when at most one client registered in the map sends from the peer's
    address, the lookup does not depend on the order in which the map is
    visited. *)
Theorem findPublisher_order_irrelevant (p : program)
    (order1 order2 : list (string * publisher)) (addr : UDPAddr)
    (streamType : StreamType) :
  order1 ≡ₚ order2 →
  (∀ k1 k2 c1 c2 i1 i2,
     (k1, pubClient c1) ∈ order1 → (k2, pubClient c2) ∈ order1 →
     publishesFrom p addr streamType c1 i1 →
     publishesFrom p addr streamType c2 i2 → c1 = c2) →
  findPublisherIn p order1 addr streamType = findPublisherIn p order2 addr streamType.
Proof.
  intros Hperm Huniq.
  assert (∀ o1 o2 c i,
            o1 ≡ₚ order1 → o2 ≡ₚ order1 →
            findPublisherIn p o1 addr streamType = Some (c, i) →
            findPublisherIn p o2 addr streamType = Some (c, i)) as Hsame.
  { intros o1 o2 c i Ho1 Ho2 Hfind.
    pose proof (findPublisherIn_track _ _ _ _ _ _ Hfind) as Htrack.
    apply findPublisherIn_sound in Hfind as [[k Hin] Hpub].
    destruct (findPublisherIn_complete p o2 addr streamType k c i) as [[c' i'] Hfind'];
      [by rewrite Ho2, <- Ho1|done|].
    pose proof (findPublisherIn_track _ _ _ _ _ _ Hfind') as Htrack'.
    rewrite Hfind'.
    apply findPublisherIn_sound in Hfind' as [[k' Hin'] Hpub'].
    assert (c = c') as <-.
    { apply (Huniq k k' c c' i i'); [by rewrite <- Ho1|by rewrite <- Ho2|done|done]. }
    congruence. }
  destruct (findPublisherIn p order1 addr streamType) as [[c i]|] eqn:H1.
  - symmetry. by apply (Hsame order1 order2).
  - destruct (findPublisherIn p order2 addr streamType) as [[c i]|] eqn:H2; [|done].
    rewrite (Hsame order2 order1 c i) in H1; done.
Qed.

Lemma findPublisher_order_irrelevant_witness :
  findPublisherIn Fixture.recording
    [("x"%string, pubClient 0%nat); ("cam"%string, pubSource 0%nat)]
    Fixture.rtpFrom6000 StreamTypeRtp
  = findPublisherIn Fixture.recording
      [("cam"%string, pubSource 0%nat); ("x"%string, pubClient 0%nat)]
      Fixture.rtpFrom6000 StreamTypeRtp.
Proof.
  apply findPublisher_order_irrelevant.
  - apply perm_swap.
  - intros k1 k2 c1 c2 i1 i2 Hin1 Hin2 _ _.
    apply elem_of_cons in Hin1 as [Hin1|Hin1];
      [|apply elem_of_cons in Hin1 as [Hin1|Hin1];
        [discriminate Hin1|by apply elem_of_nil in Hin1]].
    apply elem_of_cons in Hin2 as [Hin2|Hin2];
      [|apply elem_of_cons in Hin2 as [Hin2|Hin2];
        [discriminate Hin2|by apply elem_of_nil in Hin2]].
    congruence.
Defined.

(** ** More on forwarding *)

Lemma forwardTo_None_inv p c path trackId streamType frame :
  forwardTo p c path trackId streamType frame = None →
  isReceiver p path c ∧ ¬ canWrite p trackId frame c.
Proof.
  unfold forwardTo, isReceiver, canWrite.
  do 2 case_bool_decide; simpl; try discriminate.
  destruct (c_streamProtocol (clientMem p c)).
  - destruct (trackAt (c_streamTracks (clientMem p c)) trackId) eqn:Ht;
      [discriminate|].
    intros _. split; [done|]. by intros [t Ht'].
  - case_decide; [discriminate|]. done.
Qed.

(** X16: forwarding a frame panics exactly when some client of the set that has
    the path and is in state PLAY cannot be written to: a UDP receiver
    without a track at the index, or a TCP receiver whose write buffer is
    shorter than the frame; the order in which the set is visited makes no
    difference to that. *)
Theorem forwardFrame_panics_iff (p : program) (order : list clientPtr) (path : string)
    (trackId : Z) (streamType : StreamType) (frame : bytes) :
  order ≡ₚ elements (clients p) →
  forwardFrameIn p order path trackId streamType frame = None
  ↔ ∃ c, c ∈ clients p ∧ isReceiver p path c ∧ ¬ canWrite p trackId frame c.
Proof.
  intros Hperm.
  assert (∀ c, c ∈ order ↔ c ∈ clients p) as Hmem.
  { intros c. rewrite Hperm. apply elem_of_elements. }
  split.
  - intros Hnone.
    assert (∃ c, c ∈ order ∧ isReceiver p path c ∧ ¬ canWrite p trackId frame c)
      as (c & Hin & Hrecv & Hcan).
    { clear Hperm Hmem. induction order as [|c rest IH]; [discriminate|].
      simpl in Hnone.
      destruct (forwardTo p c path trackId streamType frame) as [a|] eqn:Hto.
      - destruct (forwardFrameIn p rest path trackId streamType frame) eqn:Hrest;
          [discriminate|].
        destruct (IH eq_refl) as (c' & Hin & H'). exists c'. split; [|done].
        apply elem_of_cons. by right.
      - apply forwardTo_None_inv in Hto. exists c. split; [|done].
        apply elem_of_cons. by left. }
    exists c. split; [by apply Hmem|done].
  - intros (c & Hin & Hrecv & Hcan).
    apply (forwardFrameIn_panic p order path trackId streamType frame c);
      [by apply Hmem|done|done].
Qed.

Lemma forwardFrame_panics_iff_witness :
  elements (clients Fixture.playing) ≡ₚ elements (clients Fixture.playing)
  ∧ (forwardFrameIn Fixture.playing (elements (clients Fixture.playing)) "cam" 0
       StreamTypeRtp (replicate 4096 Byte.x00) = None
     ↔ ∃ c, c ∈ clients Fixture.playing
            ∧ isReceiver Fixture.playing "cam" c
            ∧ ¬ canWrite Fixture.playing 0 (replicate 4096 Byte.x00) c).
Proof.
  split; [reflexivity|].
  exact (forwardFrame_panics_iff Fixture.playing (elements (clients Fixture.playing))
           "cam" 0 StreamTypeRtp (replicate 4096 Byte.x00) (reflexivity _)).
Defined.

(** X17: the writes of a forwarded frame do not depend on the order in which the
    clients set is visited, up to their own order: two visits of the same
    clients both panic, or produce the same writes in some order. *)
Theorem forwardFrame_order_irrelevant (p : program) (order1 order2 : list clientPtr)
    (path : string) (trackId : Z) (streamType : StreamType) (frame : bytes) :
  order1 ≡ₚ order2 →
  option_Forall2 (≡ₚ)
    (forwardFrameIn p order1 path trackId streamType frame)
    (forwardFrameIn p order2 path trackId streamType frame).
Proof.
  induction 1 as [|c l1 l2 Hperm IH|c1 c2 l|l1 l2 l3 H12 IH12 H23 IH23]; simpl.
  - by constructor.
  - destruct (forwardTo p c path trackId streamType frame) as [a|]; [|constructor].
    destruct IH as [w1 w2 Hw|]; constructor. by rewrite Hw.
  - destruct (forwardTo p c1 path trackId streamType frame) as [a1|],
             (forwardTo p c2 path trackId streamType frame) as [a2|],
             (forwardFrameIn p l path trackId streamType frame) as [w|];
      constructor.
    rewrite !app_assoc. by rewrite (Permutation_app_comm a2 a1).
  - destruct IH12 as [w1 w2 Hw12|]; inversion IH23; subst; constructor.
    by etrans.
Qed.

Lemma forwardFrame_order_irrelevant_witness :
  option_Forall2 (≡ₚ)
    (forwardFrameIn Fixture.playing [0%nat; 1%nat] "cam" 0 StreamTypeRtp Fixture.payload)
    (forwardFrameIn Fixture.playing [1%nat; 0%nat] "cam" 0 StreamTypeRtp Fixture.payload).
Proof.
  apply forwardFrame_order_irrelevant. apply perm_swap.
Defined.

(** ** The publishers map over a run *)

Lemma handle_keeps_entry wbs p p' e acts k pub :
  handle wbs p e = Some (p', acts) →
  publishers p !! k = Some pub →
  (∀ done c, e = programEventClientClose done c → pub ≠ pubClient c) →
  publishers p' !! k = Some pub.
Proof.
  intros Hh Hk Hno.
  destruct e; simpl in Hh;
    repeat match type of Hh with
           | context [match ?x with _ => _ end] => destruct x eqn:?; simpl in Hh
           end;
    try discriminate; injection Hh as <- <-; try exact Hk.
  - (* ClientClose removes the entry of the client *)
    simpl. rewrite lookup_delete_ne; [done|]. intros <-.
    match goal with
    | H : publishers _ !! _ = Some ?q |- _ =>
        simpl in H; rewrite Hk in H; injection H as ->
    end.
    by apply (Hno done client).
  - (* Announce adds an entry at a free path *)
    simpl. rewrite lookup_insert_ne; [done|]. intros <-. congruence.
Qed.

Lemma is_terminate_dec (e : programEvent) :
  e = programEventTerminate ∨ e ≠ programEventTerminate.
Proof. destruct e; (by left) || (by right). Qed.

(** X18: an entry of the publishers map stays, with the same publisher, through
    every run of the loop in which the publisher does not disconnect: the
    entry of a client until a ClientClose of that client, the entry of a
    source for ever. *)
Theorem publisher_entry_persists (wbs : nat) (p p' : program)
    (evts : list programEvent) (a d : list action) (k : string) (pub : publisher) :
  run wbs p evts = Some (p', a, d) →
  publishers p !! k = Some pub →
  (∀ done c, programEventClientClose done c ∈ evts → pub ≠ pubClient c) →
  publishers p' !! k = Some pub.
Proof.
  revert p a. induction evts as [|e rest IH]; intros p a Hrun Hk Hno.
  - simpl in Hrun. by injection Hrun as <- _ _.
  - destruct (is_terminate_dec e) as [->|Hne].
    + simpl in Hrun. by injection Hrun as <- _ _.
    + rewrite run_cons in Hrun by done.
      destruct (handle wbs p e) as [[p0 a0]|] eqn:Hh; [|discriminate].
      destruct (run wbs p0 rest) as [[[p2 b] d0]|] eqn:Hr; [|discriminate].
      injection Hrun as <- _ <-.
      apply (IH p0 b Hr).
      * apply (handle_keeps_entry _ _ _ _ _ _ _ Hh Hk).
        intros done c ->. apply (Hno done c). apply elem_of_cons. by left.
      * intros done c Hin. apply (Hno done c). apply elem_of_cons. by right.
Qed.

Lemma publisher_entry_persists_witness :
  ∃ p' a d,
    run Fixture.bufSize Fixture.started Fixture.playTrace = Some (p', a, d)
    ∧ publishers p' !! "cam"%string = Some (pubSource 0%nat).
Proof.
  destruct (run Fixture.bufSize Fixture.started Fixture.playTrace)
    as [[[p' a] d]|] eqn:Hrun.
  - exists p', a, d. split; [reflexivity|].
    apply (publisher_entry_persists Fixture.bufSize Fixture.started p'
             Fixture.playTrace a d "cam" (pubSource 0%nat) Hrun).
    + vm_compute. reflexivity.
    + intros done c _. discriminate.
  - vm_compute in Hrun. discriminate Hrun.
Defined.

(** ** From SetupPlay to Play1 *)

(** X19: after a SetupPlay that is accepted, on a path that another publisher
    holds, a Play1 of the client changes nothing and is answered with nil
    exactly when the track just added was the last one that the publisher's
    SDP describes. *)
Theorem setupPlay_then_play1 (wbs : nat) (p p1 : program) (res1 res2 : chan)
    (client : clientPtr) (path : string) (protocol : streamProtocol)
    (rtp rtcp : Z) (pub : publisher) :
  publishers p !! path = Some pub →
  pub ≠ pubClient client →
  handle wbs p (programEventClientSetupPlay res1 client path protocol rtp rtcp)
    = Some (p1, [ActSendErr res1 None]) →
  ∃ err,
    handle wbs p1 (programEventClientPlay1 res2 client)
      = Some (p1, [ActSendErr res2 err])
    ∧ (err = None ↔
       S (length (c_streamTracks (clientMem p client)))
       = length (MediaDescriptions (pubSdpParsed p pub))).
Proof.
  intros Hpub Hother Hsetup. simpl in Hsetup. rewrite Hpub in Hsetup.
  destruct (pubIsReady p pub) eqn:Hready; simpl in Hsetup; [|discriminate].
  case_decide as Hlen; [discriminate|]. injection Hsetup as <-.
  set (p1 := updClient client (with_state clientStatePrePlay) _).
  assert (c_path (clientMem p1 client) = path) as Hpath by (subst p1; by store_simpl).
  assert (c_streamTracks (clientMem p1 client)
          = c_streamTracks (clientMem p client) ++ [{| rtpPort := rtp; rtcpPort := rtcp |}])
    as Htracks by (subst p1; by store_simpl).
  assert (publishers p1 = publishers p) as Hpubs by done.
  assert (pubIsReady p1 pub = true) as Hready1.
  { rewrite <- Hready. destruct pub as [c|s]; [|done].
    assert (client ≠ c) by congruence. subst p1. simpl. by store_simpl. }
  assert (pubSdpParsed p1 pub = pubSdpParsed p pub) as Hsdp.
  { destruct pub as [c|s]; [|done].
    assert (client ≠ c) by congruence. subst p1. simpl. by store_simpl. }
  clearbody p1. simpl. rewrite Hpath, Hpubs, Hpub, Hready1. simpl.
  rewrite Htracks, Hsdp, length_app. simpl.
  case_decide as Hall.
  - eexists. split; [reflexivity|]. split; [discriminate|]. lia.
  - eexists. split; [reflexivity|]. split; [lia|done].
Qed.

Lemma setupPlay_then_play1_witness :
  ∃ p0 p1,
    handle Fixture.bufSize Fixture.started (programEventStreamerReady 0%nat)
      = Some (p0, [ActLogSource 0%nat "ready"])
    ∧ handle Fixture.bufSize p0
        (programEventClientSetupPlay 1%nat 0%nat "cam" streamProtocolTcp 0 1)
      = Some (p1, [ActSendErr 1%nat None])
    ∧ handle Fixture.bufSize p1 (programEventClientPlay1 2%nat 0%nat)
      = Some (p1, [ActSendErr 2%nat None]).
Proof.
  eexists _, _. split; [reflexivity|].
  match goal with
  | |- handle _ ?q ?e = Some (?r, _) ∧ _ =>
      assert (handle Fixture.bufSize q e
              = Some (updClient 0%nat (with_state clientStatePrePlay)
                        (updClient 0%nat (appendTrack 0 1)
                           (updClient 0%nat (with_streamProtocol streamProtocolTcp)
                              (updClient 0%nat (with_path "cam") q))),
                      [ActSendErr 1%nat None])) as Hsetup
        by (vm_compute; reflexivity);
      assert (publishers q !! "cam"%string = Some (pubSource 0%nat)) as Hpub
        by (vm_compute; reflexivity)
  end.
  split; [exact Hsetup|].
  destruct (setupPlay_then_play1 Fixture.bufSize _ _ 1%nat 2%nat 0%nat "cam"
              streamProtocolTcp 0 1 (pubSource 0%nat) Hpub ltac:(discriminate) Hsetup)
    as (err & Hplay & Hiff).
  assert (err = None) as Hnone by (apply Hiff; vm_compute; reflexivity).
  rewrite Hnone in Hplay. exact Hplay.
Defined.

(** ** What Terminate closes *)







(** ** From a recording session to its frames *)



Lemma forwardFrameIn_Some_inv p order path trackId streamType frame ws :
  forwardFrameIn p order path trackId streamType frame = Some ws →
  Forall2 (writeFor p trackId streamType frame) (filter (isReceiver p path) order) ws.
Proof.
  intros Hrun.
  destruct (forwardFrameIn_ok p order path trackId streamType frame)
    as (ws' & Hrun' & Hall).
  { intros c Hin Hrecv.
    destruct (decide (canWrite p trackId frame c)) as [|Hcan]; [done|].
    rewrite (forwardFrameIn_panic p order path trackId streamType frame c) in Hrun;
      done. }
  congruence.
Qed.

(** X22: a datagram on a UDP listener never changes the state.  It is dropped
    without any effect when the lookup finds no publisher; otherwise it is
    handed to the RTCP receiver of the track found, and then written once to
    each client of the set that is in state PLAY on the path of the
    publisher found, with the index of the track found, and to no one
    else. *)
Theorem frameUdp_spec (wbs : nat) (p p' : program) (addr : UDPAddr)
    (streamType : StreamType) (buf : bytes) (acts : list action) :
  handle wbs p (programEventClientFrameUdp addr streamType buf) = Some (p', acts) →
  p' = p
  ∧ (findPublisher p addr streamType = None ∧ acts = []
     ∨ ∃ c i writes,
         findPublisher p addr streamType = Some (c, i)
         ∧ isClientPublisher p c
         ∧ publishesFrom p addr streamType c i
         ∧ acts = ActRtcpOnFrame c i streamType buf :: writes
         ∧ Forall2 (writeFor p (Z.of_nat i) streamType buf)
             (filter (isReceiver p (c_path (clientMem p c))) (elements (clients p)))
             writes).
Proof.
  simpl. destruct (findPublisher p addr streamType) as [[c i]|] eqn:Hfind.
  - destruct (forwardFrame p (c_path (clientMem p c)) (Z.of_nat i) streamType buf)
      as [writes|] eqn:Hfwd; [|discriminate].
    intros [= <- <-]. split; [done|]. right. exists c, i, writes.
    split; [done|].
    unfold findPublisher in Hfind.
    apply findPublisherIn_sound in Hfind as [[path Hin] Hfrom].
    split; [exists path; by apply elem_of_map_to_list|].
    split; [done|]. split; [done|].
    by apply forwardFrameIn_Some_inv.
  - intros [= <- <-]. split; [done|]. by left.
Qed.

Lemma frameUdp_spec_witness :
  ∃ p' acts,
    handle Fixture.bufSize Fixture.recording
      (programEventClientFrameUdp Fixture.rtpFrom6000 StreamTypeRtp Fixture.payload)
      = Some (p', acts)
    ∧ p' = Fixture.recording.
Proof.
  destruct (handle Fixture.bufSize Fixture.recording
              (programEventClientFrameUdp Fixture.rtpFrom6000 StreamTypeRtp
                 Fixture.payload)) as [[p' acts]|] eqn:Hrun.
  - exists p', acts. split; [reflexivity|].
    exact (proj1 (frameUdp_spec Fixture.bufSize Fixture.recording p'
                    Fixture.rtpFrom6000 StreamTypeRtp Fixture.payload acts Hrun)).
  - vm_compute in Hrun. discriminate Hrun.
Defined.

(** ** What each handler can write *)

(** X23: the footprint of the handlers: receiverCount is written only by Play2
    and PlayStop; publisherCount only by Record, RecordStop, StreamerReady
    and StreamerNotReady; the clients set only by ClientNew and ClientClose;
    the publishers map only by Announce and ClientClose; and the list of
    sources by no event. *)
Theorem handlers_footprint (wbs : nat) (p p' : program) (e : programEvent)
    (acts : list action) :
  handle wbs p e = Some (p', acts) →
  (receiverCount p' ≠ receiverCount p →
     ∃ done c, e = programEventClientPlay2 done c
               ∨ e = programEventClientPlayStop done c)
  ∧ (publisherCount p' ≠ publisherCount p →
       (∃ done c, e = programEventClientRecord done c
                  ∨ e = programEventClientRecordStop done c)
       ∨ (∃ s, e = programEventStreamerReady s
               ∨ e = programEventStreamerNotReady s))
  ∧ (clients p' ≠ clients p →
       (∃ nconn, e = programEventClientNew nconn)
       ∨ (∃ done c, e = programEventClientClose done c))
  ∧ (publishers p' ≠ publishers p →
       (∃ res c path, e = programEventClientAnnounce res c path)
       ∨ (∃ done c, e = programEventClientClose done c))
  ∧ sources p' = sources p.
Proof.
  intros Hh.
  destruct e; simpl in Hh;
    repeat match type of Hh with
           | context [match ?x with _ => _ end] => destruct x eqn:?; simpl in Hh
           end;
    try discriminate; injection Hh as <- <-;
    (split; [|split; [|split; [|split; [|reflexivity]]]]);
    intros Hne; try (exfalso; by apply Hne); eauto 10.
Qed.

Lemma handlers_footprint_witness :
  ∃ p' acts,
    handle Fixture.bufSize Fixture.playing (programEventClientClose 4%nat 0%nat)
      = Some (p', acts)
    ∧ sources p' = sources Fixture.playing.
Proof.
  destruct (handle Fixture.bufSize Fixture.playing (programEventClientClose 4%nat 0%nat))
    as [[p' acts]|] eqn:Hrun.
  - exists p', acts. split; [reflexivity|].
    exact (proj2 (proj2 (proj2 (proj2
             (handlers_footprint Fixture.bufSize Fixture.playing p'
                (programEventClientClose 4%nat 0%nat) acts Hrun))))).
  - vm_compute in Hrun. discriminate Hrun.
Defined.

(** ** Further theorems at concrete inputs *)

Lemma play1_spec_witness :
  ∃ err,
    handle Fixture.bufSize Fixture.playing (programEventClientPlay1 5%nat 0%nat)
      = Some (Fixture.playing, [ActSendErr 5%nat err])
    ∧ err = None.
Proof.
  destruct (play1_spec Fixture.bufSize Fixture.playing 5%nat 0%nat)
    as (err & Hrun & Hiff).
  exists err. split; [exact Hrun|].
  apply Hiff. exists (pubSource 0%nat).
  split; [vm_compute; reflexivity|]. split; vm_compute; reflexivity.
Defined.

Lemma streamerNotReady_spec_witness :
  ∃ p' closes,
    handle Fixture.bufSize Fixture.playing (programEventStreamerNotReady 0%nat)
      = Some (p', ActLogSource 0%nat "not ready" :: closes)
    ∧ publisherCount p' = 0
    ∧ ActGoClose 0%nat ∈ closes.
Proof.
  destruct (streamerNotReady_spec Fixture.bufSize Fixture.playing 0%nat)
    as (p' & closes & Hrun & _ & _ & _ & Hdec & _ & _ & _ & _ & _ & _ & Hcloses).
  exists p', closes. split; [exact Hrun|]. split.
  - rewrite Hdec; [vm_compute; reflexivity|].
    vm_compute. split; [reflexivity|discriminate].
  - apply Hcloses. exists 0%nat. split; [reflexivity|].
    split; vm_compute; reflexivity.
Defined.
